(** * WildfireCodesign: the tradespace plotter and the catalogue generator

    A shallow embedding of [scripts/plot_wildfire_pareto.py] and
    [scripts/gen_catalogues.py], with the properties of their
    specification stated and proved over it.

    Numbers.  The plotter works on Python floats.  Every finite float is a
    rational and the comparisons [<], [<=], [==] of finite floats are the
    comparisons of the rationals they denote, so a finite float is a [Q]
    here, and the run of [main] is modelled on point sets whose numbers
    are ints or finite floats.  Where the code rounds, the model rounds:
    [float] of an int and the product of two floats are the exact value
    rounded to the nearest double, and overflow when that is not finite.
    [pareto_2d_min] is modelled twice: on finite floats, and in
    [ExtendedFrontier] on floats that may be infinite, [float("inf")]
    being also the value its running minimum starts from; the two agree
    on finite floats.  NaN is outside the model.  The catalogue generator
    works on Python ints, which are [Z]. *)

From Stdlib Require Import String.
From Stdlib Require Import List ZArith QArith Qround Qabs Lia Lqa Bool.
From Stdlib Require Import Permutation Sorted.
Import ListNotations.

#[local] Set Warnings "-register-all".
Local Open Scope Q_scope.

(** ** Python values shared by both scripts *)

Module Py.

(** Finite floats. *)
Definition float := Q.

(** [x < y] and [x == y] on finite floats. *)
Definition flt (x y : float) : bool := negb (Qle_bool y x).
Definition feq (x y : float) : bool := Qeq_bool x y.
Definition fle (x y : float) : bool := Qle_bool x y.

(** A float that may be [float("inf")]. *)
Inductive xfloat : Type :=
| Fin (x : float)
| PosInf.

(** [c < best] where [c] is finite. *)
Definition flt_x (c : float) (best : xfloat) : bool :=
  match best with
  | PosInf => true
  | Fin b => flt c b
  end.

(** Tuples of floats compare as Python tuples do: the first position
    where the two differ (by [==]) decides by [<]; when one is a prefix
    of the other the shorter is the smaller. *)
Fixpoint tuple_lt (a b : list float) : bool :=
  match a, b with
  | [], [] => false
  | [], _ :: _ => true
  | _ :: _, [] => false
  | x :: a', y :: b' => if feq x y then tuple_lt a' b' else flt x y
  end.

(** A float that is finite, [float("inf")] or [float("-inf")], with its
    [<] and [==]. *)
Inductive efloat : Type :=
| NegInf
| Finite (x : float)
| Inf.

Definition elt (x y : efloat) : bool :=
  match x, y with
  | NegInf, NegInf => false
  | NegInf, _ => true
  | Finite _, NegInf => false
  | Finite a, Finite b => flt a b
  | Finite _, Inf => true
  | Inf, _ => false
  end.

Definition eeq (x y : efloat) : bool :=
  match x, y with
  | NegInf, NegInf => true
  | Finite a, Finite b => feq a b
  | Inf, Inf => true
  | _, _ => false
  end.


Fixpoint etuple_lt (a b : list efloat) : bool :=
  match a, b with
  | [], [] => false
  | [], _ :: _ => true
  | _ :: _, [] => false
  | x :: a', y :: b' => if eeq x y then etuple_lt a' b' else elt x y
  end.

(** The finite float or the infinity a float that may be [float("inf")]
    stands for. *)
Definition extended (b : xfloat) : efloat :=
  match b with
  | Fin x => Finite x
  | PosInf => Inf
  end.

(** Arithmetic on doubles.  A finite double is [m * 2^e] with
    [|m| < 2^53] and [-1074 <= e <= 971]; an operation returns the double
    nearest to the exact result, the one with the even [m] when two are
    equally near, and an infinity when that double would reach [2^1024].
    [round_double] is [None] for an infinity. *)
Definition pow2 (e : Z) : Q :=
  if (0 <=? e)%Z then inject_Z (2 ^ e) else 1 / inject_Z (2 ^ (- e)).

(** The [k] with [2^k <= a < 2^(k+1)], for [a > 0]. *)
Definition ilog2 (a : Q) : Z :=
  let k := (Z.log2 (Qnum a) - Z.log2 (Zpos (Qden a)))%Z in
  if Qle_bool (pow2 k) a then k else (k - 1)%Z.

Definition round_half_even (q : Q) : Z :=
  let f := Qfloor q in
  match Qcompare (q - inject_Z f) (1 # 2) with
  | Lt => f
  | Gt => (f + 1)%Z
  | Eq => if Z.even f then f else (f + 1)%Z
  end.

Definition round_double (q : Q) : option float :=
  if Qeq_bool q 0 then Some 0
  else
    let a := Qabs q in
    let e := Z.max (ilog2 a - 52) (-1074) in
    let r := inject_Z (round_half_even (a / pow2 e)) * pow2 e in
    if Qle_bool (pow2 1024) r then None
    else Some (Qred (if Qle_bool 0 q then r else - r)).

(** [x * y] on finite floats. *)
Definition fmul (x y : float) : option float := round_double (x * y).

Arguments round_double : simpl never.

(** A number that is a finite double, held in lowest terms: rounding
    leaves it as it is. *)
Definition is_double (x : Q) : Prop := round_double x = Some x.

(** The doubles the literals [1.05] and [0.05] denote. *)
Definition d_1_05 : float := 4728779608739021 # 4503599627370496.
Definition d_0_05 : float := 3602879701896397 # 72057594037927936.

(** [list.sort(key=...)]: a stable sort that compares the keys with [<]
    only.  Stability fixes the result whatever the algorithm: among the
    arrangements in ascending key order it is the one that keeps elements
    of equal key in their input order.  It is computed here by insertion,
    each element going in front of the first one that is not smaller. *)
Section Sort.
Context {A K : Type}.
Variable key : A -> K.
Variable lt : K -> K -> bool.

Fixpoint insert (x : A) (l : list A) : list A :=
  match l with
  | [] => [x]
  | y :: ys => if lt (key y) (key x) then y :: insert x ys else x :: y :: ys
  end.

Fixpoint sort (l : list A) : list A :=
  match l with
  | [] => []
  | x :: xs => insert x (sort xs)
  end.
End Sort.

(** [a] may stand before [b] in a stably sorted list: [b]'s key is not
    smaller, and when the keys tie [a] came first in the input, [pos]
    giving the input positions. *)
Definition stable_le {A K : Type} (key : A -> K) (lt : K -> K -> bool)
  (pos : A -> nat) (a b : A) : Prop :=
  lt (key b) (key a) = false
  /\ (lt (key a) (key b) = true \/ (pos a < pos b)%nat).

(** [enumerate] and [zip]. *)
Definition enumerate {A : Type} (l : list A) : list (nat * A) :=
  combine (seq 0 (length l)) l.

Definition zip {A B : Type} (l : list A) (l' : list B) : list (A * B) :=
  combine l l'.

(** Exceptions the two scripts can raise, and results of code that may
    raise.  A [RuntimeError] carries its message as the pieces of the
    f-string that builds it: literal text and floats formatted with
    [:g]. *)
Inductive piece : Type :=
| Lit (s : string)
| FmtG (x : float).

Definition message := list piece.

Inductive exn : Type :=
| IndexError
| KeyError (k : string)
| TypeError
| NameError (x : string)
| SyntaxError
| ZeroDivisionError
| ValueError
| OverflowError
| OSError
| YAMLError
| RuntimeError (msg : message).

Inductive result (A : Type) : Type :=
| Ok (a : A)
| Raise (e : exn).
Arguments Ok {A} a.
Arguments Raise {A} e.

Definition bind {A B : Type} (r : result A) (k : A -> result B) : result B :=
  match r with
  | Ok a => k a
  | Raise e => Raise e
  end.

(** A comprehension [[f x for x in l]] whose body may raise. *)
Section Traverse.
Context {A B : Type}.
Variable f : A -> result B.

Fixpoint traverse (l : list A) : result (list B) :=
  match l with
  | [] => Ok []
  | x :: xs =>
      bind (f x) (fun y => bind (traverse xs) (fun ys => Ok (y :: ys)))
  end.
End Traverse.

(** [l[i]] for a non-negative index. *)
Definition getitem {A : Type} (l : list A) (i : nat) : result A :=
  match nth_error l i with
  | Some x => Ok x
  | None => Raise IndexError
  end.

(** A computation that never raises [RuntimeError]: of the code modelled
    only [main] raises it. *)
Definition quiet {A : Type} (r : result A) : Prop :=
  forall m, r <> Raise (RuntimeError m).

End Py.

Declare Scope py_scope.
Notation "x <- c ;; k" := (Py.bind c (fun x => k))
  (at level 61, c at next level, right associativity) : py_scope.
Notation "' p <- c ;; k" := (Py.bind c (fun p => k))
  (at level 61, p pattern, c at next level, right associativity) : py_scope.

(** ** scripts/plot_wildfire_pareto.py: the frontier *)

Module Frontier.
Import Py.

(** An enumerated point: [(idx, (load, cost))]. *)
Definition ipoint : Type := nat * (float * float).

Definition idx (t : ipoint) : nat := fst t.
Definition load (t : ipoint) : float := fst (snd t).
Definition cost (t : ipoint) : float := snd (snd t).

(** The sort key [lambda t: (t[1][0], t[1][1])]. *)
Definition key (t : ipoint) : list float := [load t; cost t].

(** The scan of [pareto_2d_min], with the two variables it updates. *)
Fixpoint scan (pts : list ipoint) (best_cost : xfloat) (frontier : list nat)
  : list nat :=
  match pts with
  | [] => frontier
  | t :: rest =>
      if flt_x (cost t) best_cost
      then scan rest (Fin (cost t)) (frontier ++ [idx t])
      else scan rest best_cost frontier
  end.

Definition sorted_points (loads costs : list float) : list ipoint :=
  sort key tuple_lt (enumerate (zip loads costs)).

Definition pareto_2d_min (loads costs : list float) : list nat :=
  scan (sorted_points loads costs) PosInf [].

(** [[xs[i] for i in idxs]]. *)
Definition pick (xs : list float) (idxs : list nat) : result (list float) :=
  traverse (getitem xs) idxs.

(** The procedure in the words of the specification: scan the sorted
    points keeping the minimum of the costs seen so far, and keep a point
    when its cost is strictly below that minimum. *)
Definition fmin_x (m : xfloat) (c : float) : xfloat :=
  match m with
  | PosInf => Fin c
  | Fin b => if flt c b then Fin c else Fin b
  end.

Definition running_min (seen : list float) : xfloat :=
  fold_left fmin_x seen PosInf.

Fixpoint keep_strict_improvements (seen : list float) (pts : list ipoint)
  : list nat :=
  match pts with
  | [] => []
  | t :: rest =>
      (if flt_x (cost t) (running_min seen) then [idx t] else [])
        ++ keep_strict_improvements (seen ++ [cost t]) rest
  end.

(** Ascending by load, then by cost; points equal in both stay in input
    order. *)
Definition by_load_then_cost (a b : ipoint) : Prop :=
  load a < load b
  \/ (load a == load b /\ cost a < cost b)
  \/ (load a == load b /\ cost a == cost b /\ (idx a < idx b)%nat).

(** The enumerated points the scan keeps, in scan order. *)
Fixpoint kept (seen : list float) (pts : list ipoint) : list ipoint :=
  match pts with
  | [] => []
  | t :: rest =>
      (if flt_x (cost t) (running_min seen) then [t] else [])
        ++ kept (seen ++ [cost t]) rest
  end.

(** [b] comes after [a] on a frontier: a higher load bought a lower cost. *)
Definition improves (a b : float * float) : Prop :=
  fst a < fst b /\ snd b < snd a.

End Frontier.

(** [pareto_2d_min] on floats that may be infinite. *)

Module ExtendedFrontier.
Import Py.

(** An enumerated point: [(idx, (load, cost))]. *)
Definition ipoint : Type := nat * (efloat * efloat).

Definition idx (t : ipoint) : nat := fst t.
Definition load (t : ipoint) : efloat := fst (snd t).
Definition cost (t : ipoint) : efloat := snd (snd t).

(** The sort key [lambda t: (t[1][0], t[1][1])]. *)
Definition key (t : ipoint) : list efloat := [load t; cost t].

(** The scan, with the two variables it updates. *)
Fixpoint scan (pts : list ipoint) (best_cost : efloat) (frontier : list nat)
  : list nat :=
  match pts with
  | [] => frontier
  | t :: rest =>
      if elt (cost t) best_cost
      then scan rest (cost t) (frontier ++ [idx t])
      else scan rest best_cost frontier
  end.

Definition sorted_points (loads costs : list efloat) : list ipoint :=
  sort key etuple_lt (enumerate (zip loads costs)).

Definition pareto_2d_min (loads costs : list efloat) : list nat :=
  scan (sorted_points loads costs) Inf [].

(** The enumerated points the scan keeps from [pts] when it starts with
    the running minimum [best_cost], in scan order. *)
Fixpoint kept (best_cost : efloat) (pts : list ipoint) : list ipoint :=
  match pts with
  | [] => []
  | t :: rest =>
      if elt (cost t) best_cost
      then t :: kept (cost t) rest
      else kept best_cost rest
  end.

(** Ascending by load, then by cost; points equal in both stay in input
    order. *)
Definition by_load_then_cost (a b : ipoint) : Prop :=
  elt (load a) (load b) = true
  \/ (eeq (load a) (load b) = true /\ elt (cost a) (cost b) = true)
  \/ (eeq (load a) (load b) = true /\ eeq (cost a) (cost b) = true
      /\ (idx a < idx b)%nat).

(** The point of a finite load and a finite cost. *)
Definition finite (p : float * float) : efloat * efloat :=
  (Finite (fst p), Finite (snd p)).

End ExtendedFrontier.

(** ** scripts/plot_wildfire_pareto.py: the shaded region *)

Module Shading.
Import Py.

(** What [ax.fill(poly_x, poly_y, ...)] is called with. *)
Definition polygon : Type := list float * list float.

(** [shade_dominated_region]: [Ok None] when it returns without drawing,
    [Ok (Some (poly_x, poly_y))] when it fills that polygon.  [fx[0]]
    raises when the zipped frontier is empty. *)
Definition shade_dominated_region
  (frontier_loads frontier_costs : list float) (x_max y_max : float)
  : result (option polygon) :=
  match frontier_loads with
  | [] => Ok None
  | _ :: _ =>
      let frontier := sort fst flt (zip frontier_loads frontier_costs) in
      let fx := map fst frontier in
      let fy := map snd frontier in
      bind (getitem fx 0) (fun fx0 =>
        let poly_x := [fx0] ++ fx ++ [x_max] in
        let poly_y := [y_max] ++ fy ++ [y_max] in
        Ok (Some (poly_x, poly_y)))
  end.

(** The area a filled polygon covers: a point is inside when a ray from it
    towards larger x crosses the outline an odd number of times.  The
    outline joins each vertex to the next by a straight segment and the
    last to the first. *)
Definition crosses (p a b : float * float) : bool :=
  let '(px, py) := p in
  let '(x1, y1) := a in
  let '(x2, y2) := b in
  negb (Bool.eqb (flt py y1) (flt py y2))
  && flt px (x1 + (py - y1) * (x2 - x1) / (y2 - y1)).

Fixpoint crossings (p first prev : float * float) (rest : list (float * float))
  : nat :=
  match rest with
  | [] => if crosses p prev first then 1 else 0
  | v :: rest' =>
      ((if crosses p prev v then 1 else 0) + crossings p first v rest')%nat
  end.

Definition covers (poly : polygon) (p : float * float) : bool :=
  match zip (fst poly) (snd poly) with
  | [] => false
  | v :: vs => Nat.odd (crossings p v v vs)
  end.

(** The region the docstring and the specification describe: the points
    within the plot bounds that some frontier point weakly dominates. *)
Definition dominated_in_bounds (frontier : list (float * float))
  (x_max y_max : float) (p : float * float) : bool :=
  fle (fst p) x_max && fle (snd p) y_max
  && existsb (fun f => fle (fst f) (fst p) && fle (snd f) (snd p)) frontier.

End Shading.

(** ** scripts/plot_wildfire_pareto.py: loading *)

Module Loader.
Import Py.
Local Open Scope py_scope.
Local Open Scope string_scope.

(** The text of [minimals], parsed.  The expressions modelled are sets and
    frozensets of tuples of numbers, and list displays, which Python's
    [eval] evaluates like any other expression.  [ENum x] is a numeric
    literal of value [x]: an integer literal, or a float literal that
    denotes the finite double [x].  [EFrozenset None] is [frozenset()].
    Other expressions ([Decimal(...)] and float literals too large for a
    double among them) are not modelled. *)
Inductive expr : Type :=
| ENum (x : float)
| ETuple (es : list expr)
| ESet (es : list expr)
| EList (es : list expr)
| EFrozenset (arg : option expr).

(** Values.  A number is an int or a finite float, held as the rational
    it denotes; a set holds its elements in the order iteration visits
    them. *)
Inductive value : Type :=
| VNum (x : float)
| VTuple (vs : list value)
| VList (vs : list value)
| VSet (frozen : bool) (vs : list value).

(** What the interpreter and the file system decide: the order in which a
    set of the given elements is iterated (it depends on hashes); the YAML
    document a path holds, if it can be read and parsed, and what fails
    when it cannot; and what fails, if anything, when an image is written
    to a path.  A document is a mapping of branch names to mappings of
    field names to texts, the shape the solver writes (documents of other
    shapes are not modelled); the text of a field is held parsed, [None]
    when it is not an expression. *)
Definition branch : Type := list (string * option expr).
Definition document : Type := list (string * branch).

(** [open] fails, the bytes are not UTF-8, or the text is not YAML. *)
Inductive unreadable : Type :=
| CannotOpen
| CannotDecode
| NotYaml.

Definition unreadable_exn (u : unreadable) : exn :=
  match u with
  | CannotOpen => OSError
  | CannotDecode => ValueError
  | NotYaml => YAMLError
  end.

(** The path cannot be written to, or its suffix names no image format. *)
Inductive unwritable : Type :=
| CannotWrite
| UnknownFormat.

Definition unwritable_exn (u : unwritable) : exn :=
  match u with
  | CannotWrite => OSError
  | UnknownFormat => ValueError
  end.

Record runtime : Type := {
  set_order : list value -> list value;
  read_yaml : string -> option document;
  read_failure : string -> unreadable;
  write_failure : string -> option unwritable
}.

(** [d[k]] on a dict held as an association list with distinct keys. *)
Fixpoint lookup {A : Type} (d : list (string * A)) (k : string) : result A :=
  match d with
  | [] => Raise (KeyError k)
  | (k', v) :: d' => if String.eqb k' k then Ok v else lookup d' k
  end.

(** [hash(v)] succeeds. *)
Fixpoint hashable (v : value) : bool :=
  match v with
  | VNum _ => true
  | VTuple vs => forallb hashable vs
  | VList _ => false
  | VSet frozen _ => frozen
  end.

(** [a == b]. *)
Fixpoint value_eqb (a b : value) : bool :=
  let fix all2 (l : list value) (l' : list value) : bool :=
    match l, l' with
    | [], [] => true
    | x :: xs, y :: ys => value_eqb x y && all2 xs ys
    | _, _ => false
    end in
  let fix subset (l : list value) (l' : list value) : bool :=
    match l with
    | [] => true
    | x :: xs => existsb (value_eqb x) l' && subset xs l'
    end in
  match a, b with
  | VNum x, VNum y => feq x y
  | VTuple l, VTuple l' => all2 l l'
  | VList l, VList l' => all2 l l'
  | VSet _ l, VSet _ l' =>
      Nat.eqb (List.length l) (List.length l') && subset l l'
  | _, _ => false
  end.

(** The elements a set keeps of a sequence of elements: the first of each
    group of equal ones. *)
Fixpoint distinct (seen vs : list value) : list value :=
  match vs with
  | [] => []
  | v :: vs' =>
      if existsb (value_eqb v) seen then distinct seen vs'
      else v :: distinct (seen ++ [v]) vs'
  end.

Definition make_set (rt : runtime) (frozen : bool) (vs : list value)
  : result value :=
  if forallb hashable vs
  then Ok (VSet frozen (set_order rt (distinct [] vs)))
  else Raise TypeError.

(** [list(v)]. *)
Definition iterate (v : value) : result (list value) :=
  match v with
  | VNum _ => Raise TypeError
  | VTuple vs | VList vs | VSet _ vs => Ok vs
  end.

(** [eval(raw, {"Decimal": Decimal, "frozenset": frozenset}, {})] on a
    parsed text. *)
Fixpoint eval (rt : runtime) (e : expr) : result value :=
  match e with
  | ENum x => Ok (VNum x)
  | ETuple es => vs <- traverse (eval rt) es ;; Ok (VTuple vs)
  | ESet es => vs <- traverse (eval rt) es ;; make_set rt false vs
  | EList es => vs <- traverse (eval rt) es ;; Ok (VList vs)
  | EFrozenset None => Ok (VSet true [])
  | EFrozenset (Some arg) =>
      v <- eval rt arg ;; vs <- iterate v ;; make_set rt true vs
  end.

(** The grammar the specification allows, on the expressions modelled:
    numeric literals, and tuple and set syntax with [frozenset]. *)
Fixpoint in_grammar (e : expr) : bool :=
  match e with
  | ENum _ | EFrozenset None => true
  | ETuple es | ESet es => forallb in_grammar es
  | EList _ => false
  | EFrozenset (Some arg) => in_grammar arg
  end.

(** [p[i]], [len(p)] and [float(v)].  [float] of a float is that float;
    [float] of an int is the nearest double, and raises when the int is
    too large for a double. *)
Definition subscript (p : value) (i : nat) : result value :=
  match p with
  | VTuple vs | VList vs => getitem vs i
  | VNum _ | VSet _ _ => Raise TypeError
  end.

Definition len (p : value) : result nat :=
  match p with
  | VTuple vs | VList vs | VSet _ vs => Ok (List.length vs)
  | VNum _ => Raise TypeError
  end.

Definition to_float (v : value) : result float :=
  match v with
  | VNum x =>
      match round_double x with
      | Some y => Ok y
      | None => Raise OverflowError
      end
  | _ => Raise TypeError
  end.

Definition item (p : value) (i : nat) : result float :=
  v <- subscript p i ;; to_float v.

(** The sort key
    [(float(p[1]), float(p[0]), float(p[2]) if len(p) > 2 else 0.0)]. *)
Definition sort_key (p : value) : result (list float) :=
  x1 <- item p 1 ;;
  x0 <- item p 0 ;;
  n <- len p ;;
  x2 <- (if (2 <? n)%nat then item p 2 else Ok 0) ;;
  Ok [x1; x0; x2].

Definition columns : Type := list float * list float * list float.

(** [pts.sort(key=...)]: [list.sort] computes the key of every element
    before it compares any. *)
Definition sort_points (pts : list value) : result (list value) :=
  keyed <- traverse (fun p => k <- sort_key p ;; Ok (k, p)) pts ;;
  Ok (map snd (sort fst tuple_lt keyed)).

(** [load_antichain] from [pts = list(antichain)] on. *)
Definition load_points (pts : list value) : result columns :=
  match pts with
  | [] => Ok ([], [], [])
  | _ :: _ =>
      pts <- sort_points pts ;;
      loads <- traverse (fun p => item p 1) pts ;;
      costs <- traverse (fun p => item p 0) pts ;;
      p0 <- getitem pts 0 ;;
      n0 <- len p0 ;;
      times <- (if (3 <=? n0)%nat
                then traverse (fun p => item p 2) pts
                else Ok (map (fun _ => 0) pts)) ;;
      Ok (loads, costs, times)
  end.

Definition load_antichain (rt : runtime) (path which : string)
  : result columns :=
  data <- match read_yaml rt path with
          | Some d => Ok d
          | None => Raise (unreadable_exn (read_failure rt path))
          end ;;
  br <- lookup data which ;;
  raw <- lookup br "minimals" ;;
  antichain <- match raw with
               | Some e => eval rt e
               | None => Raise SyntaxError
               end ;;
  pts <- iterate antichain ;;
  load_points pts.

(** A point as the specification reads a tuple: (cost, load, time) when it
    has three components, (cost, load) with time 0 otherwise. *)
Definition as_point (p : list float) : float * float * float :=
  match p with
  | [c; l; t] => (c, l, t)
  | c :: l :: _ => (c, l, 0)
  | _ => (0, 0, 0)
  end.

Definition p_cost (p : list float) : float := fst (fst (as_point p)).
Definition p_load (p : list float) : float := snd (fst (as_point p)).
Definition p_time (p : list float) : float := snd (as_point p).

(** Lexicographic order on (load, cost, time). *)
Definition by_load_cost_time (p q : list float) : Prop :=
  p_load p < p_load q
  \/ (p_load p == p_load q /\ p_cost p < p_cost q)
  \/ (p_load p == p_load q /\ p_cost p == p_cost q /\ p_time p <= p_time q).

Definition tuple_of (p : list float) : value := VTuple (map VNum p).

(** The key the code sorts a tuple by, on the tuple's numbers. *)
Definition key3 (p : list float) : list float :=
  [p_load p; p_cost p; p_time p].

Definition arity (n : nat) (pts : list (list float)) : Prop :=
  Forall (fun p => length p = n) pts.

(** All tuples have three components, or all have two. *)
Definition fixed_size (pts : list (list float)) : Prop :=
  arity 3 pts \/ arity 2 pts.

(** Every number of every tuple is a finite double, as every float is:
    [float] leaves it as it is. *)
Definition doubles (pts : list (list float)) : Prop :=
  Forall (Forall is_double) pts.

(** The set of the specification's example, and a document holding it. *)
Definition example_points : list (list float) :=
  [[100; 50; 10]; [90; 60; 5]; [80; 40; 20]].

Definition example_minimals : expr :=
  ESet [ETuple [ENum 100; ENum 50; ENum 10];
        ETuple [ENum 90; ENum 60; ENum 5];
        ETuple [ENum 80; ENum 40; ENum 20]].

Definition example_document : document :=
  [("optimistic"%string, [("minimals"%string, Some example_minimals)])].

(** A run of the example with sets iterated in the order they were
    written. *)
Definition example_runtime (d : document) : runtime :=
  {| set_order := fun vs => vs;
     read_yaml := fun _ => Some d;
     read_failure := fun _ => CannotOpen;
     write_failure := fun _ => None |}.

(** A set of one tuple of four components, and a set of a tuple of three
    and a tuple of two. *)
Definition four_components_document : document :=
  [("optimistic"%string,
    [("minimals"%string,
      Some (ESet [ETuple [ENum 1; ENum 2; ENum 3; ENum 4]]))])].

Definition mixed_sizes_document : document :=
  [("optimistic"%string,
    [("minimals"%string,
      Some (ESet [ETuple [ENum 1; ENum 1; ENum 5];
                  ETuple [ENum 0; ENum 0]]))])].

(** A text outside the grammar: the list display [[(1.0, 2.0, 3.0)]]. *)
Definition list_minimals : expr :=
  EList [ETuple [ENum 1; ENum 2; ENum 3]].

Definition list_document : document :=
  [("optimistic"%string, [("minimals"%string, Some list_minimals)])].

(** The sort key of the code on a tuple of numbers, and the three columns
    read off such a tuple. *)
Definition code_key (p : list float) : list float :=
  [nth 1 p 0; nth 0 p 0; if (2 <? List.length p)%nat then nth 2 p 0 else 0].

Definition second (p : list float) : float := nth 1 p 0.
Definition first (p : list float) : float := nth 0 p 0.
Definition third (p : list float) : float := nth 2 p 0.


End Loader.

(** ** scripts/plot_wildfire_pareto.py: the run *)

Module Plotter.
Import Py.
Local Open Scope py_scope.
Local Open Scope string_scope.

Inductive shade_mode : Type :=
| ShadeNone
| ShadeProjection
| ShadeSlice.

Inductive branch_choice : Type :=
| Optimistic
| Pessimistic.

Definition branch_name (w : branch_choice) : string :=
  match w with
  | Optimistic => "optimistic"
  | Pessimistic => "pessimistic"
  end.

(** The namespace [parse_args] returns. *)
Record args : Type := {
  path : string;
  which : branch_choice;
  time_max : option float;
  shade : shade_mode;
  output : string;
  label_max : Z
}.

(** The three messages of [main]. *)
Definition msg_empty : message :=
  [Lit "No Pareto points found (empty antichain)."].

Definition msg_filtered (t : float) : message :=
  [Lit "No points remain after filtering with response_time <= ";
   FmtG t; Lit " min"].

Definition msg_slice : message :=
  [Lit "--shade slice requires --time-max (defines the slice)."].

(** [range(start, stop, step)] for a positive step, as a list. *)
Definition range (start stop step : Z) : list Z :=
  let count := if (start <? stop)%Z
               then (1 + (stop - 1 - start) / step)%Z
               else 0%Z in
  map (fun k => (start + Z.of_nat k * step)%Z) (seq 0 (Z.to_nat count)).

(** The indices [main] labels: [range(n)] when [n <= label_max], else
    [range(0, n, max(1, n // label_max))].  [//] is floor division, which
    [Z.div] is, and raises on a zero divisor. *)
Definition label_indices (n : nat) (label_max : Z) : result (list nat) :=
  if (Z.of_nat n <=? label_max)%Z then Ok (seq 0 n)
  else if (label_max =? 0)%Z then Raise ZeroDivisionError
  else
    let step := Z.max 1 (Z.of_nat n / label_max) in
    Ok (map Z.to_nat (range 0 (Z.of_nat n) step)).

(** [int(x)] on a finite float: truncation towards zero. *)
Definition int_of_float (x : float) : Z :=
  Z.quot (Qnum x) (Zpos (Qden x)).

(** [max(xs)]. *)
Definition fmax (xs : list float) : result float :=
  match xs with
  | [] => Raise ValueError
  | x :: xs' => Ok (fold_left (fun m y => if flt m y then y else m) xs' x)
  end.

(** One [ax.annotate] call: the three integers of its text and the point
    it is attached to. *)
Record annotation : Type := {
  ann_cost : Z;
  ann_load : Z;
  ann_time : Z;
  ann_xy : float * float
}.

(** What has been drawn when the image is saved; calls that only style the
    plot (colour bar, utopia marker, axis labels, title, grid, legend) are
    left out.  [xlim] and [ylim] are the limits [ax.set_xlim] and
    [ax.set_ylim] are called with. *)
Record figure : Type := {
  scatter : Loader.columns;
  annotations : list annotation;
  xlim : float * float;
  ylim : float * float;
  shading : option Shading.polygon
}.

Definition annotate (loads costs times : list float) (i : nat)
  : result annotation :=
  c <- getitem costs i ;;
  l <- getitem loads i ;;
  t <- getitem times i ;;
  l' <- getitem loads i ;;
  c' <- getitem costs i ;;
  Ok {| ann_cost := int_of_float c; ann_load := int_of_float l;
        ann_time := int_of_float t; ann_xy := (l', c') |}.

(** The optional time slice of [main]. *)
Definition time_slice (tmax : float) (cols : Loader.columns) : Loader.columns :=
  let '(loads, costs, times) := cols in
  let filtered :=
    filter (fun x => fle (snd x) tmax) (zip (zip loads costs) times) in
  (map (fun x => fst (fst x)) filtered,
   map (fun x => snd (fst x)) filtered,
   map snd filtered).

(** The shading step of [main]. *)
Definition shade_step (a : args) (loads costs : list float)
  (x_right y_top : float) : result (option Shading.polygon) :=
  match shade a with
  | ShadeNone => Ok None
  | mode =>
      match mode, time_max a with
      | ShadeSlice, None => Raise (RuntimeError msg_slice)
      | _, _ =>
          let front_idxs := Frontier.pareto_2d_min loads costs in
          f_loads <- Frontier.pick loads front_idxs ;;
          f_costs <- Frontier.pick costs front_idxs ;;
          Shading.shade_dominated_region f_loads f_costs x_right y_top
      end
  end.

(** The optional filter of [main] with its check. *)
Definition slice_step (a : args) (cols : Loader.columns)
  : result Loader.columns :=
  match time_max a with
  | None => Ok cols
  | Some tmax =>
      let cols' := time_slice tmax cols in
      match fst (fst cols') with
      | [] => Raise (RuntimeError (msg_filtered tmax))
      | _ :: _ => Ok cols'
      end
  end.

(** [ax.set_xlim] and [ax.set_ylim]: a limit that is not finite is
    refused with a [ValueError]. *)
Definition set_lim (low high : option float) : result (float * float) :=
  match low, high with
  | Some l, Some h => Ok (l, h)
  | _, _ => Raise ValueError
  end.

(** The limits of the two axes, [(xlim, ylim)]: lines 196 to 199. *)
Definition axis_limits (loads costs : list float)
  : result ((float * float) * (float * float)) :=
  max_load <- fmax loads ;;
  max_cost <- fmax costs ;;
  let x_right := fmul max_load d_1_05 in
  let y_top := fmul max_cost d_1_05 in
  xlim <- set_lim (fmul (- d_0_05) max_load) x_right ;;
  ylim <- set_lim (fmul (- d_0_05) max_cost) y_top ;;
  Ok (xlim, ylim).

(** [fig.savefig(args.output)]. *)
Definition savefig (rt : Loader.runtime) (out : string) (fig : figure)
  : result (string * figure) :=
  match Loader.write_failure rt out with
  | None => Ok (out, fig)
  | Some u => Raise (Loader.unwritable_exn u)
  end.

(** [main] from [plt.subplots] to [fig.savefig]. *)
Definition render (rt : Loader.runtime) (a : args) (cols : Loader.columns)
  : result (string * figure) :=
  let '(loads, costs, times) := cols in
  idxs <- label_indices (List.length loads) (label_max a) ;;
  anns <- traverse (annotate loads costs times) idxs ;;
  lims <- axis_limits loads costs ;;
  shaded <- shade_step a loads costs (snd (fst lims)) (snd (snd lims)) ;;
  savefig rt (output a)
    {| scatter := cols;
       annotations := anns;
       xlim := fst lims;
       ylim := snd lims;
       shading := shaded |}.

(** [main]: [Ok (output, fig)] when [fig.savefig(args.output)] is reached,
    the exception otherwise. *)
Definition main (rt : Loader.runtime) (a : args) : result (string * figure) :=
  cols <- Loader.load_antichain rt (path a) (branch_name (which a)) ;;
  match fst (fst cols) with
  | [] => Raise (RuntimeError msg_empty)
  | _ :: _ =>
      cols <- slice_step a cols ;;
      render rt a cols
  end.

(** The empty-result errors. *)
Definition empty_result (e : exn) : Prop :=
  e = RuntimeError msg_empty \/ exists t, e = RuntimeError (msg_filtered t).

(** The image a run leaves behind, if any. *)
Definition image_written {A : Type} (r : result (string * A)) : option string :=
  match r with
  | Ok (out, _) => Some out
  | Raise _ => None
  end.


Definition slice_args : args :=
  {| path := "out-query/output.yaml";
     which := Optimistic;
     time_max := None;
     shade := ShadeSlice;
     output := "wildfire_tradespace.png";
     label_max := 25 |}.

(** Five points and a label cap of three. *)
Definition five_points_document : Loader.document :=
  [("optimistic"%string,
    [("minimals"%string,
      Some (Loader.ESet [Loader.ETuple [Loader.ENum 50; Loader.ENum 10; Loader.ENum 5];
                  Loader.ETuple [Loader.ENum 40; Loader.ENum 20; Loader.ENum 5];
                  Loader.ETuple [Loader.ENum 30; Loader.ENum 30; Loader.ENum 5];
                  Loader.ETuple [Loader.ENum 20; Loader.ENum 40; Loader.ENum 5];
                  Loader.ETuple [Loader.ENum 10; Loader.ENum 50; Loader.ENum 5]]))])].

Definition cap_three_args : args :=
  {| path := "out-query/output.yaml";
     which := Optimistic;
     time_max := None;
     shade := ShadeNone;
     output := "wildfire_tradespace.png";
     label_max := 3 |}.

(** The same run with a label cap of zero. *)
Definition zero_cap_slice_args : args :=
  {| path := "out-query/output.yaml";
     which := Optimistic;
     time_max := None;
     shade := ShadeSlice;
     output := "wildfire_tradespace.png";
     label_max := 0 |}.

(** One point whose cost is the largest finite double,
    [1.7976931348623157e308]. *)
Definition largest_cost_document : Loader.document :=
  [("optimistic"%string,
    [("minimals"%string,
      Some (Loader.ESet
              [Loader.ETuple [Loader.ENum (inject_Z ((2 ^ 53 - 1) * 2 ^ 971));
                              Loader.ENum 1; Loader.ENum 1]]))])].

(** Columns of one length. *)
Definition aligned (cols : Loader.columns) : Prop :=
  let '(loads, costs, times) := cols in
  List.length costs = List.length loads
  /\ List.length times = List.length loads.

Definition projection_args : args :=
  {| path := "out-query/output.yaml";
     which := Optimistic;
     time_max := None;
     shade := ShadeProjection;
     output := "wildfire_tradespace.png";
     label_max := 25 |}.

End Plotter.

(** ** scripts/gen_catalogues.py *)

Module GenCatalogues.
Local Open Scope string_scope.
Local Open Scope list_scope.
Local Open Scope Z_scope.

(** The state of the [random] module: the raw numbers the generator will
    produce and how many have been used.  Which numbers those are after
    [random.seed(7)] is the generator's business; every property below
    holds whatever they are. *)
Record rng : Type := {
  raw : nat -> nat;
  used : nat
}.

(** A number below [n], and the state after the draw. *)
Definition randbelow (n : nat) (g : rng) : nat * rng :=
  (Nat.modulo (raw g (used g)) n, {| raw := raw g; used := S (used g) |}).

(** [random.choice(bins)] on a non-empty list. *)
Definition choice (bins : list Z) (g : rng) : Z * rng :=
  let (i, g') := randbelow (List.length bins) g in
  (nth i bins 0, g').

(** [random.randint(a, b)], both ends included. *)
Definition randint (a b : Z) (g : rng) : Z * rng :=
  let (i, g') := randbelow (Z.to_nat (b - a + 1)) g in
  (a + Z.of_nat i, g').

(** A catalogue entry [model{k}] with its [f_max] and [r_min] lists, each
    value with its unit. *)
Record entry : Type := {
  model : nat;
  f_max : list (Z * string);
  r_min : list (Z * string)
}.

(** [for _ in range(n)]: run [body] [n] times, appending to [rows]. *)
Fixpoint repeat_rows {R : Type} (body : rng -> R * rng) (n : nat)
  (rows : list R) (g : rng) : list R * rng :=
  match n with
  | O => (rows, g)
  | S n' =>
      let (row, g') := body g in
      repeat_rows body n' (rows ++ [row]) g'
  end.

(** [enumerate(rows)] turned into entries. *)
Definition entries {R : Type} (render : nat -> R -> entry) (rows : list R)
  : list entry :=
  map (fun kr => render (fst kr) (snd kr)) (Py.enumerate rows).

Definition aircraft_row (g : rng) : (Z * Z * Z * Z) * rng :=
  let area_bins := [10; 15; 20; 25; 30; 35; 40; 45; 50] in
  let time_bins := [6; 8; 10; 12; 15; 18; 22; 26; 30] in
  let (area, g) := choice area_bins g in
  let (time, g) := choice time_bins g in
  let (noise_c, g) := randint (-25000) 25000 g in
  let cost := 150000 + area * 25000 + Z.max 0 (22 - time) * 40000 + noise_c in
  let (noise_l, g) := randint (-200) 200 g in
  let load := 1200 + area * 55 + Z.max 0 (22 - time) * 95 + noise_l in
  let cost := Z.max cost 120000 in
  let load := Z.max load 500 in
  ((area, cost, load, time), g).

Definition aircraft_rows (n : Z) (g : rng) : list (Z * Z * Z * Z) * rng :=
  let (rows, g) := repeat_rows aircraft_row (Z.to_nat n) [] g in
  (rows ++ [(10, 250000, 1500, 30); (50, 2000000, 7000, 6)], g).

Definition aircraft_entry (k : nat) (row : Z * Z * Z * Z) : entry :=
  let '(a, c, l, t) := row in
  {| model := k;
     f_max := [(a, "ha")];
     r_min := [(c, "USD"); (l, "kg"); (t, "min")] |}.

Definition gen_aircraft (n : Z) (g : rng) : list entry * rng :=
  let (rows, g) := aircraft_rows n g in
  (entries aircraft_entry rows, g).

Definition crew_row (g : rng) : (Z * Z * Z) * rng :=
  let area_bins := [20; 30; 40; 50; 60; 70; 80; 90; 100; 110; 120] in
  let time_bins := [10; 15; 18; 20; 25; 30; 35; 40; 45; 60] in
  let (area, g) := choice area_bins g in
  let (time, g) := choice time_bins g in
  let (noise, g) := randint (-12000) 12000 g in
  let cost := 80000 + area * 6500 + Z.max 0 (45 - time) * 8000 + noise in
  let cost := Z.max cost 60000 in
  ((area, cost, time), g).

Definition crew_rows (n : Z) (g : rng) : list (Z * Z * Z) * rng :=
  let (rows, g) := repeat_rows crew_row (Z.to_nat n) [] g in
  (rows ++ [(20, 150000, 60); (120, 1050000, 10)], g).

Definition crew_entry (k : nat) (row : Z * Z * Z) : entry :=
  let '(a, c, t) := row in
  {| model := k;
     f_max := [(a, "ha")];
     r_min := [(c, "USD"); (t, "min")] |}.

Definition gen_crews (n : Z) (g : rng) : list entry * rng :=
  let (rows, g) := crew_rows n g in
  (entries crew_entry rows, g).

Definition retardant_row (g : rng) : (Z * Z) * rng :=
  let load_bins := [1000; 1500; 2000; 2500; 3000; 4000; 5000; 6000; 7000] in
  let (load, g) := choice load_bins g in
  let (noise, g) := randint (-3000) 3000 g in
  let cost := 20000 + load * 18 + noise in
  let cost := Z.max cost 10000 in
  ((load, cost), g).

Definition retardant_rows (n : Z) (g : rng) : list (Z * Z) * rng :=
  let (rows, g) := repeat_rows retardant_row (Z.to_nat n) [] g in
  (rows ++ [(2000, 50000); (6000, 50000)], g).

Definition retardant_entry (k : nat) (row : Z * Z) : entry :=
  let '(l, c) := row in
  {| model := k;
     f_max := [(l, "kg")];
     r_min := [(c, "USD")] |}.

Definition gen_retardant (n : Z) (g : rng) : list entry * rng :=
  let (rows, g) := retardant_rows n g in
  (entries retardant_entry rows, g).

(** The three catalogues the script writes, in the order it generates
    them, the generator state running through. *)
Definition catalogues (g : rng) : list entry * list entry * list entry :=
  let (aircraft, g) := gen_aircraft 100 g in
  let (crews, g) := gen_crews 100 g in
  let (retardant, g) := gen_retardant 40 g in
  (aircraft, crews, retardant).

(** The declared floors, read off an entry's [r_min] list. *)
Definition aircraft_floors (e : entry) : Prop :=
  exists c l t,
    r_min e = [(c, "USD"); (l, "kg"); (t, "min")]
    /\ 120000 <= c /\ 500 <= l.

Definition crew_floors (e : entry) : Prop :=
  exists c t, r_min e = [(c, "USD"); (t, "min")] /\ 60000 <= c.

Definition retardant_floors (e : entry) : Prop :=
  exists c, r_min e = [(c, "USD")] /\ 10000 <= c.

(** The floors on the rows, before they are rendered. *)
Definition aircraft_ok (row : Z * Z * Z * Z) : Prop :=
  let '(_, c, l, _) := row in 120000 <= c /\ 500 <= l.

Definition crew_ok (row : Z * Z * Z) : Prop :=
  let '(_, c, _) := row in 60000 <= c.

Definition retardant_ok (row : Z * Z) : Prop :=
  let '(_, c) := row in 10000 <= c.

(** The bin tables of the three generators. *)
Definition aircraft_area_bins : list Z := [10; 15; 20; 25; 30; 35; 40; 45; 50].
Definition aircraft_time_bins : list Z := [6; 8; 10; 12; 15; 18; 22; 26; 30].
Definition crew_area_bins : list Z :=
  [20; 30; 40; 50; 60; 70; 80; 90; 100; 110; 120].
Definition crew_time_bins : list Z := [10; 15; 18; 20; 25; 30; 35; 40; 45; 60].
Definition retardant_load_bins : list Z :=
  [1000; 1500; 2000; 2500; 3000; 4000; 5000; 6000; 7000].

(** An entry of each catalogue with its values in the bins and within the
    ranges the cost model and the anchors span. *)
Definition aircraft_entry_ok (e : entry) : Prop :=
  exists a c l t,
    f_max e = [(a, "ha")]
    /\ r_min e = [(c, "USD"); (l, "kg"); (t, "min")]
    /\ In a aircraft_area_bins /\ In t aircraft_time_bins
    /\ 250000 <= c <= 2065000 /\ 1500 <= l <= 7000.

Definition crew_entry_ok (e : entry) : Prop :=
  exists a c t,
    f_max e = [(a, "ha")]
    /\ r_min e = [(c, "USD"); (t, "min")]
    /\ In a crew_area_bins /\ In t crew_time_bins
    /\ 150000 <= c <= 1152000.

Definition retardant_entry_ok (e : entry) : Prop :=
  exists l c,
    f_max e = [(l, "kg")]
    /\ r_min e = [(c, "USD")]
    /\ In l retardant_load_bins
    /\ 35000 <= c <= 149000.

(** The same on rows, and the narrower ranges of the rows the cost model
    generates. *)
Definition aircraft_row_in_range (row : Z * Z * Z * Z) : Prop :=
  let '(a, c, l, t) := row in
  In a aircraft_area_bins /\ In t aircraft_time_bins
  /\ 375000 <= c <= 2065000 /\ 1550 <= l <= 5670.

Definition crew_row_in_range (row : Z * Z * Z) : Prop :=
  let '(a, c, t) := row in
  In a crew_area_bins /\ In t crew_time_bins /\ 198000 <= c <= 1152000.

Definition retardant_row_in_range (row : Z * Z) : Prop :=
  let '(l, c) := row in
  In l retardant_load_bins /\ 35000 <= c <= 149000.

(** The anchor entries, with the identifier they get after [n] rows. *)
Definition aircraft_anchors (n : nat) : list entry :=
  [aircraft_entry n (10, 250000, 1500, 30);
   aircraft_entry (S n) (50, 2000000, 7000, 6)].

Definition crew_anchors (n : nat) : list entry :=
  [crew_entry n (20, 150000, 60); crew_entry (S n) (120, 1050000, 10)].

Definition retardant_anchors (n : nat) : list entry :=
  [retardant_entry n (2000, 50000); retardant_entry (S n) (6000, 50000)].

(** The units of an entry's values, in order. *)
Definition units (e : entry) : list string * list string :=
  (map snd (f_max e), map snd (r_min e)).

End GenCatalogues.

(** * Properties *)

(** ** Floats, tuples and the stable sort *)

Module PyFacts.
Import Py.

Lemma flt_true (x y : float) : flt x y = true <-> x < y.
Proof.
  unfold flt. rewrite negb_true_iff. split; intros H.
  - apply Qnot_le_lt. intros Hle. apply Qle_bool_iff in Hle. congruence.
  - destruct (Qle_bool y x) eqn:E; trivial.
    apply Qle_bool_iff in E. lra.
Qed.

Lemma flt_false (x y : float) : flt x y = false <-> y <= x.
Proof.
  unfold flt. rewrite negb_false_iff. apply Qle_bool_iff.
Qed.

Lemma feq_true (x y : float) : feq x y = true <-> x == y.
Proof. apply Qeq_bool_iff. Qed.

Lemma feq_false (x y : float) : feq x y = false <-> ~ x == y.
Proof.
  unfold feq. split; intros H.
  - intros E. apply Qeq_bool_iff in E. congruence.
  - destruct (Qeq_bool x y) eqn:E; trivial.
    apply Qeq_bool_iff in E. contradiction.
Qed.

Lemma fle_true (x y : float) : fle x y = true <-> x <= y.
Proof. apply Qle_bool_iff. Qed.

Lemma fle_false (x y : float) : fle x y = false <-> y < x.
Proof.
  unfold fle. split; intros H.
  - apply Qnot_le_lt. intros Hle. apply Qle_bool_iff in Hle. congruence.
  - destruct (Qle_bool x y) eqn:E; trivial.
    apply Qle_bool_iff in E. lra.
Qed.

(** Turn every boolean comparison among the hypotheses into its
    proposition over [Q]. *)
Ltac float_props :=
  repeat match goal with
    | H : flt _ _ = true |- _ => apply flt_true in H
    | H : flt _ _ = false |- _ => apply flt_false in H
    | H : feq _ _ = true |- _ => apply feq_true in H
    | H : feq _ _ = false |- _ => apply feq_false in H
    | H : fle _ _ = true |- _ => apply fle_true in H
    | H : fle _ _ = false |- _ => apply fle_false in H
    end.

(** Case analysis on every comparison the goal branches on. *)
Ltac float_cases :=
  repeat match goal with
    | |- context [feq ?x ?y] => destruct (feq x y) eqn:?
    | |- context [flt ?x ?y] => destruct (flt x y) eqn:?
    end.

Lemma tuple_lt_asym (a b : list float) :
  tuple_lt a b = true -> tuple_lt b a = false.
Proof.
  revert b. induction a as [|x a IH]; intros [|y b]; simpl; try congruence.
  float_cases; intros H; float_props; try discriminate; auto; lra.
Qed.

Lemma tuple_le_trans (a b c : list float) :
  tuple_lt b a = false -> tuple_lt c b = false -> tuple_lt c a = false.
Proof.
  revert b c.
  induction a as [|x a IH]; intros [|y b] [|z c]; simpl; try congruence.
  float_cases; intros Hba Hcb; float_props; try discriminate; eauto; lra.
Qed.

Section SortFacts.
Context {A K : Type}.
Variable key : A -> K.
Variable lt : K -> K -> bool.
Variable pos : A -> nat.
Hypothesis lt_asym : forall a b, lt a b = true -> lt b a = false.
Hypothesis le_trans :
  forall a b c, lt b a = false -> lt c b = false -> lt c a = false.

Lemma insert_perm (x : A) (l : list A) :
  Permutation (insert key lt x l) (x :: l).
Proof.
  induction l as [|y ys IH]; simpl.
  - apply Permutation_refl.
  - destruct (lt (key y) (key x)).
    + eapply perm_trans; [apply perm_skip, IH | apply perm_swap].
    + apply Permutation_refl.
Qed.

Lemma sort_perm (l : list A) : Permutation (sort key lt l) l.
Proof.
  induction l as [|x xs IH]; simpl.
  - apply perm_nil.
  - eapply perm_trans; [apply insert_perm | apply perm_skip, IH].
Qed.

Lemma insert_sorted (x : A) (s : list A) :
  StronglySorted (stable_le key lt pos) s ->
  Forall (fun y => (pos x < pos y)%nat) s ->
  StronglySorted (stable_le key lt pos) (insert key lt x s).
Proof.
  induction 1 as [|y ys Hs IH Hy]; intros Hpos; simpl.
  - repeat constructor.
  - inversion Hpos as [|? ? Hxy Hxs]; subst.
    destruct (lt (key y) (key x)) eqn:E.
    + constructor; [now apply IH|].
      eapply Permutation_Forall;
        [apply Permutation_sym, insert_perm|].
      constructor; trivial.
      split; [now apply lt_asym | now left].
    + constructor; [now constructor|].
      constructor; [split; auto|].
      rewrite Forall_forall in *. intros z Hz. split.
      * apply le_trans with (b := key y); trivial. now apply Hy.
      * right. now apply Hxs.
Qed.

Lemma sort_sorted (l : list A) :
  StronglySorted (fun a b => (pos a < pos b)%nat) l ->
  StronglySorted (stable_le key lt pos) (sort key lt l).
Proof.
  induction 1 as [|x xs Hs IH Hx]; simpl.
  - constructor.
  - apply insert_sorted; trivial.
    eapply Permutation_Forall; [apply Permutation_sym, sort_perm | exact Hx].
Qed.

Lemma insert_ascending (x : A) (s : list A) :
  StronglySorted (fun a b => lt (key b) (key a) = false) s ->
  StronglySorted (fun a b => lt (key b) (key a) = false)
    (insert key lt x s).
Proof.
  induction 1 as [|y ys Hs IH Hy]; simpl.
  - repeat constructor.
  - destruct (lt (key y) (key x)) eqn:E.
    + constructor; trivial.
      eapply Permutation_Forall;
        [apply Permutation_sym, insert_perm|].
      constructor; trivial. now apply lt_asym.
    + constructor; [now constructor|].
      constructor; trivial.
      rewrite Forall_forall in *. intros z Hz.
      apply le_trans with (b := key y); trivial. now apply Hy.
Qed.

(** The sorted list is in ascending key order, whatever the input. *)
Lemma sort_ordered (l : list A) :
  StronglySorted (fun a b => lt (key b) (key a) = false) (sort key lt l).
Proof.
  induction l as [|x xs IH]; simpl.
  - constructor.
  - now apply insert_ascending.
Qed.

(** A list already in ascending key order is left as it is. *)
Lemma sort_ascending (l : list A) :
  StronglySorted (fun a b => lt (key b) (key a) = false) l ->
  sort key lt l = l.
Proof.
  induction 1 as [|x xs Hs IH Hx]; simpl; trivial.
  rewrite IH. destruct xs as [|y ys]; simpl; trivial.
  inversion Hx as [|? ? Hxy _]; subst. now rewrite Hxy.
Qed.

End SortFacts.

(** Sorting commutes with a map that keeps the keys. *)
Lemma sort_map {A B K : Type} (key : A -> K) (key' : B -> K)
      (lt : K -> K -> bool) (g : A -> B) (l : list A) :
  (forall x, key' (g x) = key x) ->
  sort key' lt (map g l) = map g (sort key lt l).
Proof.
  intros Hk.
  assert (Hins : forall x s,
             insert key' lt (g x) (map g s) = map g (insert key lt x s)).
  { intros x s. induction s as [|y ys IH]; simpl; trivial.
    rewrite !Hk. destruct (lt (key y) (key x)); simpl; trivial.
    now rewrite IH. }
  induction l as [|x xs IH]; simpl; trivial.
  now rewrite IH, Hins.
Qed.

Lemma traverse_map {A B : Type} (f : A -> result B) (g : A -> B)
      (l : list A) :
  Forall (fun x => f x = Ok (g x)) l -> traverse f l = Ok (map g l).
Proof.
  induction 1 as [|x xs Hx _ IH]; simpl; trivial.
  now rewrite Hx, IH.
Qed.

Lemma traverse_premap {A B C : Type} (f : B -> result C) (g : A -> B)
      (l : list A) :
  traverse f (map g l) = traverse (fun x => f (g x)) l.
Proof.
  induction l as [|x xs IH]; simpl; trivial. now rewrite IH.
Qed.

Lemma traverse_length {A B : Type} (f : A -> result B) (l : list A)
      (l' : list B) :
  traverse f l = Ok l' -> length l' = length l.
Proof.
  revert l'. induction l as [|x xs IH]; simpl; intros l' H.
  - now injection H as <-.
  - destruct (f x) as [y|e]; simpl in H; [|discriminate].
    destruct (traverse f xs) as [ys|e]; simpl in H; [|discriminate].
    injection H as <-. simpl. f_equal. now apply IH.
Qed.

Lemma StronglySorted_mono {A : Type} (R R' : A -> A -> Prop) (l : list A) :
  (forall a b, In a l -> In b l -> R a b -> R' a b) ->
  StronglySorted R l -> StronglySorted R' l.
Proof.
  intros Himp Hs. induction Hs as [|x xs Hs IH Hx].
  - constructor.
  - constructor.
    + apply IH. intros a b Ha Hb. apply Himp; now right.
    + rewrite Forall_forall in *. intros y Hy.
      apply Himp; [now left | now right | now apply Hx].
Qed.

Lemma enumerate_from_sorted {A : Type} (l : list A) (s : nat) :
  StronglySorted (fun a b : nat * A => (fst a < fst b)%nat)
    (combine (seq s (length l)) l).
Proof.
  revert s. induction l as [|x xs IH]; intros s; simpl.
  - constructor.
  - constructor; [apply IH|].
    rewrite Forall_forall. intros [i y] Hin. simpl.
    apply in_combine_l in Hin. apply in_seq in Hin. lia.
Qed.

Lemma enumerate_from_nth {A : Type} (l : list A) (s i : nat) (x : A) :
  In (i, x) (combine (seq s (length l)) l)
  <-> (s <= i)%nat /\ nth_error l (i - s) = Some x.
Proof.
  revert s. induction l as [|y ys IH]; intros s; simpl.
  - split; [tauto|]. intros [_ H]. destruct (i - s)%nat; discriminate.
  - rewrite IH. split.
    + intros [E | [Hle Hn]].
      * injection E as <- <-. rewrite Nat.sub_diag. now split.
      * split; [lia|]. replace (i - s)%nat with (S (i - S s)) by lia.
        exact Hn.
    + intros [Hle Hn]. destruct (i - s)%nat as [|k] eqn:E.
      * left. injection Hn as <-. f_equal. lia.
      * right. split; [lia|]. replace (i - S s)%nat with k by lia.
        exact Hn.
Qed.

Lemma enumerate_nth {A : Type} (l : list A) (i : nat) (x : A) :
  In (i, x) (enumerate l) <-> nth_error l i = Some x.
Proof.
  unfold enumerate. rewrite enumerate_from_nth, Nat.sub_0_r.
  split; [tauto | intros H; split; [lia | exact H]].
Qed.

Lemma map_fst_enumerate {A : Type} (l : list A) :
  map fst (enumerate l) = seq 0 (length l).
Proof.
  unfold enumerate. generalize 0%nat.
  induction l as [|x xs IH]; intros s; simpl; [trivial|].
  now rewrite IH.
Qed.

Lemma zip_nth {A B : Type} (l : list A) (l' : list B) (i : nat) (a : A) (b : B) :
  nth_error (zip l l') i = Some (a, b)
  <-> nth_error l i = Some a /\ nth_error l' i = Some b.
Proof.
  unfold zip. revert l' i.
  induction l as [|x xs IH]; intros [|y ys] [|i]; simpl;
    try (split; [discriminate | intros [? ?]; discriminate]).
  - split; [intros E; injection E as <- <-; now split|].
    intros [E1 E2]. injection E1 as <-. injection E2 as <-. trivial.
  - apply IH.
Qed.


Lemma fle_chain (x y z : float) :
  flt y x = false -> flt z y = false -> flt z x = false.
Proof. intros H1 H2. float_props. apply flt_false. lra. Qed.

End PyFacts.

(** ** The 2D frontier *)

Module FrontierFacts.
Import Py PyFacts Frontier.

Lemma keep_is_map_kept (seen : list float) (pts : list ipoint) :
  keep_strict_improvements seen pts = map idx (kept seen pts).
Proof.
  revert seen. induction pts as [|t rest IH]; intros seen; simpl; trivial.
  rewrite map_app, IH. now destruct (flt_x (cost t) (running_min seen)).
Qed.

Lemma running_min_snoc (seen : list float) (c : float) :
  running_min (seen ++ [c]) = fmin_x (running_min seen) c.
Proof. unfold running_min. now rewrite fold_left_app. Qed.

(** After a point is scanned the running minimum is its cost when it was
    kept and is unchanged when it was not: the variable [best_cost] of the
    code, which only a kept point updates, is the running minimum over all
    the points scanned. *)
Lemma running_min_step (seen : list float) (c : float) :
  running_min (seen ++ [c])
  = if flt_x c (running_min seen) then Fin c else running_min seen.
Proof.
  rewrite running_min_snoc.
  destruct (running_min seen) as [b|]; simpl; trivial.
Qed.

Lemma scan_keep (pts : list ipoint) (seen : list float) (acc : list nat) :
  scan pts (running_min seen) acc
  = acc ++ keep_strict_improvements seen pts.
Proof.
  revert seen acc. induction pts as [|t rest IH]; intros seen acc; simpl.
  - now rewrite app_nil_r.
  - specialize (IH (seen ++ [cost t])). rewrite running_min_step in IH.
    destruct (flt_x (cost t) (running_min seen)).
    + now rewrite IH, <- app_assoc.
    + now rewrite IH.
Qed.

Lemma pareto_2d_min_keep (loads costs : list float) :
  pareto_2d_min loads costs
  = keep_strict_improvements [] (sorted_points loads costs).
Proof. unfold pareto_2d_min. apply (scan_keep _ [] []). Qed.

Lemma stable_le_by_load_then_cost (a b : ipoint) :
  stable_le key tuple_lt idx a b -> by_load_then_cost a b.
Proof.
  unfold stable_le, by_load_then_cost, key. simpl.
  float_cases; intros [H1 H2]; float_props;
    try discriminate; try lra;
    destruct H2 as [H2 | H2]; try discriminate; float_props; try lra.
  right. right. repeat split; trivial; lra.
Qed.

Lemma sorted_points_perm (loads costs : list float) :
  Permutation (sorted_points loads costs) (enumerate (zip loads costs)).
Proof. apply sort_perm. Qed.

Lemma sorted_points_sorted (loads costs : list float) :
  StronglySorted by_load_then_cost (sorted_points loads costs).
Proof.
  apply StronglySorted_mono with (R := stable_le key tuple_lt idx).
  - intros a b _ _. apply stable_le_by_load_then_cost.
  - apply sort_sorted.
    + apply tuple_lt_asym.
    + apply tuple_le_trans.
    + apply enumerate_from_sorted.
Qed.

Lemma by_load_then_cost_asym (a b : ipoint) :
  by_load_then_cost a b -> by_load_then_cost b a -> False.
Proof. unfold by_load_then_cost. intros H1 H2. intuition (try lra; lia). Qed.

(** The sorted arrangement is unique: the order is strict on points of
    different index. *)
Lemma sorted_arrangement_unique (l1 l2 : list ipoint) :
  Permutation l1 l2 ->
  StronglySorted by_load_then_cost l1 ->
  StronglySorted by_load_then_cost l2 ->
  l1 = l2.
Proof.
  revert l2. induction l1 as [|x xs IH]; intros l2 Hp H1 H2.
  - apply Permutation_nil in Hp. now subst.
  - destruct l2 as [|y ys].
    + apply Permutation_sym, Permutation_nil in Hp. discriminate.
    + inversion H1 as [|? ? Hxs Hx]; subst.
      inversion H2 as [|? ? Hys Hy]; subst.
      rewrite Forall_forall in Hx, Hy.
      assert (E : x = y).
      { assert (Hin1 : In x (y :: ys))
          by (eapply Permutation_in; [exact Hp | now left]).
        assert (Hin2 : In y (x :: xs))
          by (eapply Permutation_in;
              [apply Permutation_sym; exact Hp | now left]).
        destruct Hin1 as [E | Hin1]; [now symmetry|].
        destruct Hin2 as [E | Hin2]; [trivial|].
        exfalso. eapply by_load_then_cost_asym; eauto. }
      subst y. f_equal. apply IH; trivial.
      eapply Permutation_cons_inv; exact Hp.
Qed.

(** C1.  [pareto_2d_min] returns exactly the indices selected by: sort the
    points ascending by load then by cost, scan in that order keeping the
    running minimum of the costs, and keep a point iff its cost is
    strictly below the running minimum.  The sorted arrangement exists and
    whichever list is that arrangement, scanning it gives the function's
    result.  On the points (1,5), (1,3), (2,4), (3,1) the result is the
    indices 1 and 3, the points (1,3) and (3,1). *)
Theorem pareto_2d_min_is_sort_then_scan :
  (forall loads costs : list float,
      exists sorted : list ipoint,
        Permutation sorted (enumerate (zip loads costs))
        /\ StronglySorted by_load_then_cost sorted
        /\ pareto_2d_min loads costs = keep_strict_improvements [] sorted)
  /\ (forall (loads costs : list float) (sorted : list ipoint),
        Permutation sorted (enumerate (zip loads costs)) ->
        StronglySorted by_load_then_cost sorted ->
        pareto_2d_min loads costs = keep_strict_improvements [] sorted)
  /\ pareto_2d_min [1; 1; 2; 3] [5; 3; 4; 1] = [1; 3]%nat
  /\ pick [1; 1; 2; 3] [1; 3]%nat = Ok [1; 3]
  /\ pick [5; 3; 4; 1] [1; 3]%nat = Ok [3; 1].
Proof.
  split; [|split; [|repeat split]].
  - intros loads costs. exists (sorted_points loads costs).
    split; [apply sorted_points_perm|].
    split; [apply sorted_points_sorted | apply pareto_2d_min_keep].
  - intros loads costs sorted Hp Hs.
    rewrite pareto_2d_min_keep. f_equal.
    apply sorted_arrangement_unique.
    + eapply perm_trans;
        [apply sorted_points_perm | apply Permutation_sym, Hp].
    + apply sorted_points_sorted.
    + exact Hs.
Qed.

(** *** Every point is covered by the frontier *)

Lemma keep_incl (seen : list float) (pts : list ipoint) :
  incl (keep_strict_improvements seen pts) (map idx pts).
Proof.
  revert seen. induction pts as [|t rest IH]; intros seen i; simpl.
  - trivial.
  - rewrite in_app_iff. intros [H | H].
    + destruct (flt_x (cost t) (running_min seen)); [|contradiction].
      destruct H as [H | []]. now left.
    + right. eapply IH, H.
Qed.

Lemma keep_NoDup (seen : list float) (pts : list ipoint) :
  NoDup (map idx pts) -> NoDup (keep_strict_improvements seen pts).
Proof.
  revert seen. induction pts as [|t rest IH]; intros seen Hnd; simpl.
  - constructor.
  - inversion Hnd as [|? ? Hnotin Hnd']; subst.
    destruct (flt_x (cost t) (running_min seen)); simpl; [|now apply IH].
    constructor; [|now apply IH].
    intros Hin. apply Hnotin. eapply keep_incl, Hin.
Qed.

(** Scanning a sorted list: each point either has the running minimum of
    the points before the list at or below its cost, or is weakly
    dominated by a point of the list that the scan keeps. *)
Lemma keep_covers (pts : list ipoint) :
  StronglySorted by_load_then_cost pts ->
  forall (seen : list float) (t : ipoint),
    In t pts ->
    (exists b, running_min seen = Fin b /\ b <= cost t)
    \/ (exists t', In t' pts
                   /\ In (idx t') (keep_strict_improvements seen pts)
                   /\ load t' <= load t /\ cost t' <= cost t).
Proof.
  induction 1 as [|u rest Hs IH Hu]; intros seen t Hin; [contradiction|].
  simpl. destruct (flt_x (cost u) (running_min seen)) eqn:Eu.
  - right. destruct Hin as [<- | Hin].
    + exists u. repeat split; [now left | now left | lra | lra].
    + destruct (IH (seen ++ [cost u]) t Hin)
        as [(b & Hb & Hle) | (t' & Hin' & Hk & Hl & Hc)].
      * rewrite running_min_step, Eu in Hb. injection Hb as <-.
        exists u. repeat split; [now left | now left | | exact Hle].
        rewrite Forall_forall in Hu. specialize (Hu t Hin).
        unfold by_load_then_cost in Hu. intuition lra.
      * exists t'. repeat split; trivial; [now right | now right].
  - destruct (running_min seen) as [b|] eqn:Eb; [|discriminate].
    simpl in Eu. float_props.
    destruct Hin as [<- | Hin].
    + left. exists b. now split.
    + destruct (IH (seen ++ [cost u]) t Hin)
        as [(b' & Hb & Hle) | (t' & Hin' & Hk & Hl & Hc)].
      * left. rewrite running_min_step, Eb in Hb. simpl in Hb.
        apply flt_false in Eu. rewrite Eu in Hb. injection Hb as <-.
        exists b. now split.
      * right. exists t'. repeat split; trivial. now right.
Qed.

Lemma sorted_points_idx (loads costs : list float) :
  Permutation (map idx (sorted_points loads costs))
    (seq 0 (length (zip loads costs))).
Proof.
  rewrite <- map_fst_enumerate. apply Permutation_map, sorted_points_perm.
Qed.

Lemma sorted_points_nth (loads costs : list float) (t : ipoint) :
  In t (sorted_points loads costs)
  <-> nth_error (zip loads costs) (idx t) = Some (load t, cost t).
Proof.
  rewrite <- enumerate_nth. destruct t as [i [l c]]. simpl.
  split; intros H.
  - eapply Permutation_in; [apply sorted_points_perm | exact H].
  - eapply Permutation_in;
      [apply Permutation_sym, sorted_points_perm | exact H].
Qed.

(** *** Idempotence *)

Lemma kept_incl (seen : list float) (pts : list ipoint) :
  incl (kept seen pts) pts.
Proof.
  revert seen. induction pts as [|t rest IH]; intros seen k; simpl.
  - trivial.
  - rewrite in_app_iff. intros [H | H].
    + destruct (flt_x (cost t) (running_min seen)); [|contradiction].
      destruct H as [H | []]. now left.
    + right. eapply IH, H.
Qed.

Lemma flt_x_trans (x y : float) (m : xfloat) :
  x < y -> flt_x y m = true -> flt_x x m = true.
Proof.
  destruct m as [b|]; simpl; trivial.
  intros Hxy H. float_props. apply flt_true. lra.
Qed.

(** The kept points of a sorted list, in scan order, have strictly
    increasing loads and strictly decreasing costs. *)
Lemma kept_improves (pts : list ipoint) :
  StronglySorted by_load_then_cost pts ->
  forall seen : list float,
    StronglySorted (fun a b => improves (snd a) (snd b)) (kept seen pts)
    /\ Forall (fun k => flt_x (cost k) (running_min seen) = true)
         (kept seen pts).
Proof.
  induction 1 as [|u rest Hs IH Hu]; intros seen; simpl.
  - split; constructor.
  - destruct (IH (seen ++ [cost u])) as [IHs IHf].
    rewrite running_min_step in IHf.
    destruct (flt_x (cost u) (running_min seen)) eqn:Eu; simpl.
    + rewrite Forall_forall in IHf, Hu. split.
      * constructor; trivial.
        rewrite Forall_forall. intros k Hk.
        specialize (IHf k Hk). simpl in IHf. float_props.
        specialize (Hu k (kept_incl _ _ _ Hk)).
        unfold by_load_then_cost in Hu. unfold improves.
        fold (load u) (load k) (cost u) (cost k). intuition lra.
      * constructor; trivial.
        rewrite Forall_forall. intros k Hk.
        specialize (IHf k Hk). simpl in IHf. float_props.
        now apply flt_x_trans with (y := cost u).
    + now split.
Qed.

Lemma pick_map {A : Type} (xs : list float) (f : A -> float) (g : A -> nat)
      (ks : list A) :
  Forall (fun k => nth_error xs (g k) = Some (f k)) ks ->
  pick xs (map g ks) = Ok (map f ks).
Proof.
  unfold pick. induction 1 as [|k ks Hk _ IH]; simpl; trivial.
  unfold getitem at 1. now rewrite Hk, IH.
Qed.


Lemma zip_map_fst_snd {A B : Type} (ps : list (A * B)) :
  zip (map fst ps) (map snd ps) = ps.
Proof.
  unfold zip. induction ps as [|[a b] ps IH]; simpl; [trivial|].
  now rewrite IH.
Qed.





(** *** The frontier is the set of non-dominated points *)



(** The frontier as enumerated points: they lie in the input at their
    indices, in scan order they form a staircase, and they are not empty
    when the input is not. *)
Lemma frontier_points (loads costs : list float) :
  exists ks : list ipoint,
    pareto_2d_min loads costs = map idx ks
    /\ pick loads (pareto_2d_min loads costs) = Ok (map load ks)
    /\ pick costs (pareto_2d_min loads costs) = Ok (map cost ks)
    /\ StronglySorted improves (map snd ks)
    /\ (zip loads costs <> [] -> ks <> []).
Proof.
  set (ks := kept [] (sorted_points loads costs)).
  assert (Hfront : pareto_2d_min loads costs = map idx ks)
    by (rewrite pareto_2d_min_keep; apply keep_is_map_kept).
  assert (Hnth : Forall (fun k => nth_error loads (idx k) = Some (load k)
                                  /\ nth_error costs (idx k) = Some (cost k))
                   ks).
  { rewrite Forall_forall. intros k Hk.
    apply kept_incl, sorted_points_nth in Hk. now apply zip_nth. }
  exists ks. split; [exact Hfront|]. rewrite Hfront.
  split; [|split; [|split]].
  - apply pick_map. eapply Forall_impl; [|exact Hnth]. now intros k [H _].
  - apply pick_map. eapply Forall_impl; [|exact Hnth]. now intros k [_ H].
  - destruct (kept_improves _ (sorted_points_sorted loads costs) [])
      as [Hs _].
    fold ks in Hs. clear -Hs.
    induction Hs as [|k ks' Hs IH Hk]; simpl; constructor; trivial.
    now apply Forall_map.
  - intros Hne Hnil.
    destruct (zip loads costs) as [|[l c] rest] eqn:E; [congruence|].
    assert (Hin : In (0%nat, (l, c)) (sorted_points loads costs))
      by (apply sorted_points_nth; simpl; now rewrite E).
    destruct (keep_covers _ (sorted_points_sorted loads costs) [] _ Hin)
      as [(b & Hb & _) | (t' & _ & Hk & _)]; [discriminate|].
    rewrite keep_is_map_kept in Hk. fold ks in Hk. rewrite Hnil in Hk.
    contradiction.
Qed.




End FrontierFacts.

(** ** The 2D frontier on floats that may be infinite *)

Module ExtendedFrontierFacts.
Import Py PyFacts ExtendedFrontier.


Lemma ele_chain (x y z : efloat) :
  elt y x = false -> elt z y = false -> elt z x = false.
Proof.
  destruct x, y, z; simpl; try congruence. apply fle_chain.
Qed.























(** On finite floats the frontier is the one of [Frontier]. *)
Lemma zip_map {A B A' B' : Type} (f : A -> A') (g : B -> B')
      (l : list A) (l' : list B) :
  zip (map f l) (map g l')
  = map (fun p => (f (fst p), g (snd p))) (zip l l').
Proof.
  unfold zip. revert l'.
  induction l as [|x xs IH]; intros [|y ys]; simpl; trivial.
  now rewrite IH.
Qed.

Lemma enumerate_map {A B : Type} (g : A -> B) (l : list A) :
  enumerate (map g l) = map (fun t => (fst t, g (snd t))) (enumerate l).
Proof.
  unfold enumerate. rewrite length_map. generalize (seq 0 (length l)).
  induction l as [|x xs IH]; intros [|i js]; simpl; trivial.
  now rewrite IH.
Qed.

Lemma sort_ext {A K K' : Type} (key : A -> K) (key' : A -> K')
      (lt : K -> K -> bool) (lt' : K' -> K' -> bool) (l : list A) :
  (forall x y, lt' (key' x) (key' y) = lt (key x) (key y)) ->
  sort key' lt' l = sort key lt l.
Proof.
  intros H.
  assert (Hins : forall x s, insert key' lt' x s = insert key lt x s).
  { intros x s. induction s as [|y ys IH]; simpl; trivial.
    now rewrite H, IH. }
  induction l as [|x xs IH]; simpl; trivial.
  now rewrite IH, Hins.
Qed.

Definition lift (t : Frontier.ipoint) : ipoint := (fst t, finite (snd t)).

Lemma scan_finite (pts : list Frontier.ipoint) (best : xfloat)
      (acc : list nat) :
  scan (map lift pts) (extended best) acc = Frontier.scan pts best acc.
Proof.
  revert best acc. induction pts as [|t rest IH]; intros best acc;
    [reflexivity|].
  cbn [map scan Frontier.scan].
  replace (elt (cost (lift t)) (extended best))
    with (flt_x (Frontier.cost t) best) by (now destruct best).
  destruct (flt_x (Frontier.cost t) best).
  - apply (IH (Fin (Frontier.cost t))).
  - apply IH.
Qed.

Lemma pareto_2d_min_finite (loads costs : list float) :
  pareto_2d_min (map Finite loads) (map Finite costs)
  = Frontier.pareto_2d_min loads costs.
Proof.
  unfold pareto_2d_min, Frontier.pareto_2d_min, sorted_points,
    Frontier.sorted_points.
  rewrite zip_map, enumerate_map.
  change (map (fun t : nat * (float * float) =>
                 (fst t, (Finite (fst (snd t)), Finite (snd (snd t)))))
            (enumerate (zip loads costs)))
    with (map lift (enumerate (zip loads costs))).
  rewrite (sort_map (fun t => key (lift t)) key etuple_lt lift)
    by reflexivity.
  rewrite (sort_ext Frontier.key (fun t => key (lift t)) tuple_lt etuple_lt)
    by reflexivity.
  apply (scan_finite _ PosInf []).
Qed.

End ExtendedFrontierFacts.

(** ** The shaded region *)

Module ShadingFacts.
Import Py Shading.

(** C6, at the inputs where the code departs from it.  For the one-point
    frontier (1,1) in a plot bounded by 5 and 5 the function fills the
    triangle (1,5), (1,1), (5,5); the point (4,2) is within the bounds and
    dominated by (1,1), and the triangle does not cover it.  For the
    frontier (1,3), (3,1) it fills (1,5), (1,3), (3,1), (5,5), which
    covers (2, 5/2), a point no frontier point dominates. *)
Theorem shade_dominated_region_is_not_the_staircase :
  shade_dominated_region [1] [1] 5 5 = Ok (Some ([1; 1; 5], [5; 1; 5]))
  /\ dominated_in_bounds [(1, 1)] 5 5 (4, 2) = true
  /\ covers ([1; 1; 5], [5; 1; 5]) (4, 2) = false
  /\ shade_dominated_region [1; 3] [3; 1] 5 5
     = Ok (Some ([1; 1; 3; 5], [5; 3; 1; 5]))
  /\ dominated_in_bounds [(1, 3); (3, 1)] 5 5 (2, 5 # 2) = false
  /\ covers ([1; 1; 3; 5], [5; 3; 1; 5]) (2, 5 # 2) = true.
Proof. repeat split; vm_compute; reflexivity. Qed.


(** The polygon of a staircase: the sort leaves it as it is. *)
Lemma shade_of_staircase (p0 : float * float) (ps : list (float * float))
      (x_max y_max : float) :
  StronglySorted Frontier.improves (p0 :: ps) ->
  shade_dominated_region (map fst (p0 :: ps)) (map snd (p0 :: ps)) x_max y_max
  = Ok (Some (fst p0 :: map fst (p0 :: ps) ++ [x_max],
              y_max :: map snd (p0 :: ps) ++ [y_max])).
Proof.
  intros Hs. unfold shade_dominated_region.
  change (map fst (p0 :: ps)) with (fst p0 :: map fst ps) at 1.
  cbv iota. change (fst p0 :: map fst ps) with (map fst (p0 :: ps)).
  rewrite FrontierFacts.zip_map_fst_snd.
  rewrite PyFacts.sort_ascending; [reflexivity|].
  eapply PyFacts.StronglySorted_mono; [|exact Hs].
  intros a b _ _ [Hl _]. apply PyFacts.flt_false. lra.
Qed.

End ShadingFacts.

(** ** Loading *)

Module LoaderFacts.
Import Py PyFacts Loader.
Local Open Scope py_scope.

Lemma to_float_double (x : float) : is_double x -> to_float (VNum x) = Ok x.
Proof. unfold is_double, to_float. now intros ->. Qed.

(** [float(p[i])] on a tuple of doubles. *)
Lemma item_double (p : list float) (i : nat) :
  Forall is_double p ->
  item (tuple_of p) i
  = match nth_error p i with
    | Some x => Ok x
    | None => Raise IndexError
    end.
Proof.
  intros Hp. unfold item, tuple_of, subscript, getitem.
  rewrite nth_error_map.
  destruct (nth_error p i) as [x|] eqn:E; cbn [option_map bind];
    [|reflexivity].
  apply to_float_double. rewrite Forall_forall in Hp. apply Hp.
  eapply nth_error_In. exact E.
Qed.

Lemma doubles_in (pts : list (list float)) (p : list float) :
  doubles pts -> In p pts -> Forall is_double p.
Proof. unfold doubles. rewrite Forall_forall. auto. Qed.

Lemma doubles_perm (pts pts' : list (list float)) :
  Permutation pts pts' -> doubles pts -> doubles pts'.
Proof. intros Hp. apply Permutation_Forall, Hp. Qed.

Lemma fixed_size_cases (pts : list (list float)) (p : list float) :
  fixed_size pts -> In p pts ->
  (exists c l t, p = [c; l; t]) \/ (exists c l, p = [c; l]).
Proof.
  unfold fixed_size, arity. rewrite !Forall_forall.
  intros [H | H] Hin; specialize (H p Hin).
  - left. destruct p as [|c [|l [|t [|]]]]; try discriminate. eauto.
  - right. destruct p as [|c [|l [|]]]; try discriminate. eauto.
Qed.

Lemma key3_order (p q : list float) :
  tuple_lt (key3 q) (key3 p) = false -> by_load_cost_time p q.
Proof.
  unfold key3, by_load_cost_time. simpl.
  float_cases; intros H; float_props; try discriminate; lra.
Qed.

Lemma fixed_size_perm (pts pts' : list (list float)) :
  Permutation pts pts' -> fixed_size pts -> fixed_size pts'.
Proof.
  unfold fixed_size, arity.
  intros Hp [H | H]; [left | right]; eapply Permutation_Forall; eauto.
Qed.

Lemma sort_key_tuple (pts : list (list float)) (p : list float) :
  fixed_size pts -> doubles pts -> In p pts ->
  sort_key (tuple_of p) = Ok (key3 p).
Proof.
  intros Hfix Hd Hin. pose proof (doubles_in pts p Hd Hin) as Hp.
  unfold sort_key. rewrite !(item_double p _ Hp).
  destruct (fixed_size_cases pts p Hfix Hin) as [(c & l & t & ->) | (c & l & ->)];
    reflexivity.
Qed.

Lemma item_tuple (pts : list (list float)) (p : list float) :
  fixed_size pts -> doubles pts -> In p pts ->
  item (tuple_of p) 1 = Ok (p_load p) /\ item (tuple_of p) 0 = Ok (p_cost p).
Proof.
  intros Hfix Hd Hin. pose proof (doubles_in pts p Hd Hin) as Hp.
  rewrite !(item_double p _ Hp).
  destruct (fixed_size_cases pts p Hfix Hin) as [(c & l & t & ->) | (c & l & ->)];
    now split.
Qed.

Lemma sort_points_tuples (pts : list (list float)) :
  fixed_size pts -> doubles pts ->
  sort_points (map tuple_of pts)
  = Ok (map tuple_of (sort key3 tuple_lt pts)).
Proof.
  intros Hfix Hd. unfold sort_points.
  rewrite traverse_premap.
  rewrite traverse_map with (g := fun p => (key3 p, tuple_of p)).
  - simpl. f_equal.
    rewrite sort_map with (key := key3) by reflexivity.
    now rewrite map_map.
  - rewrite Forall_forall. intros p Hin.
    now rewrite (sort_key_tuple pts p Hfix Hd Hin).
Qed.

(** [load_points] on tuples of doubles of one size. *)
Lemma load_points_fixed_size (pts : list (list float)) :
  fixed_size pts -> doubles pts ->
  load_points (map tuple_of pts)
  = Ok (map p_load (sort key3 tuple_lt pts),
        map p_cost (sort key3 tuple_lt pts),
        map p_time (sort key3 tuple_lt pts)).
Proof.
  intros Hfix Hd. destruct pts as [|p0 ps]; [reflexivity|].
  unfold load_points. cbn [map].
  change (tuple_of p0 :: map tuple_of ps) with (map tuple_of (p0 :: ps)).
  set (pts := p0 :: ps) in *.
  rewrite sort_points_tuples by assumption.
  set (sorted := sort key3 tuple_lt pts).
  assert (Hperm : Permutation sorted pts) by apply sort_perm.
  assert (Hsorted : fixed_size sorted)
    by (eapply fixed_size_perm; [apply Permutation_sym, Hperm | exact Hfix]).
  assert (Hds : doubles sorted)
    by (eapply doubles_perm; [apply Permutation_sym, Hperm | exact Hd]).
  cbn [bind]. rewrite !traverse_premap.
  rewrite traverse_map with (g := p_load);
    [|rewrite Forall_forall; intros p Hin;
      now destruct (item_tuple sorted p Hsorted Hds Hin)].
  rewrite traverse_map with (g := p_cost);
    [|rewrite Forall_forall; intros p Hin;
      now destruct (item_tuple sorted p Hsorted Hds Hin)].
  cbn [bind].
  destruct sorted as [|q qs] eqn:Es.
  { apply Permutation_nil in Hperm. discriminate. }
  cbn [map]. unfold getitem. cbn [nth_error bind].
  destruct Hsorted as [H3 | H2].
  - assert (Hq : length q = 3%nat) by (inversion H3; trivial).
    unfold tuple_of at 1. cbn [len bind]. rewrite length_map, Hq.
    cbn [Nat.leb].
    rewrite traverse_map with (g := p_time); [reflexivity|].
    unfold arity in H3. rewrite Forall_forall in *. intros p Hin.
    specialize (H3 p Hin).
    rewrite (item_double p 2 (doubles_in _ p Hds Hin)).
    destruct p as [|c [|l [|t [|]]]]; try discriminate. reflexivity.
  - assert (Hq : length q = 2%nat) by (inversion H2; trivial).
    unfold tuple_of at 1. cbn [len bind]. rewrite length_map, Hq.
    cbn [Nat.leb bind].
    change (tuple_of q :: map tuple_of qs) with (map tuple_of (q :: qs)).
    rewrite map_map.
    change (p_time q :: map p_time qs) with (map p_time (q :: qs)).
    replace (map p_time (q :: qs))
      with (map (fun _ : list float => 0) (q :: qs)); [reflexivity|].
    apply map_ext_in. intros p Hin.
    unfold arity in H2. rewrite Forall_forall in H2. specialize (H2 p Hin).
    destruct p as [|c [|l [|]]]; try discriminate. reflexivity.
Qed.

Lemma permutation_of_three {A : Type} (a b c : A) (l : list A) :
  Permutation [a; b; c] l ->
  l = [a; b; c] \/ l = [a; c; b] \/ l = [b; a; c]
  \/ l = [b; c; a] \/ l = [c; a; b] \/ l = [c; b; a].
Proof.
  intros Hp. destruct l as [|x l'].
  { apply Permutation_sym, Permutation_nil in Hp. discriminate. }
  assert (Hin : In x [a; b; c])
    by (eapply Permutation_in; [apply Permutation_sym, Hp | now left]).
  destruct Hin as [<- | [<- | [<- | []]]].
  - apply Permutation_cons_inv, Permutation_length_2_inv in Hp.
    destruct Hp as [-> | ->]; auto.
  - apply Permutation_sym in Hp.
    apply (Permutation_cons_app_inv [a] [c]) in Hp.
    apply Permutation_sym, Permutation_length_2_inv in Hp.
    destruct Hp as [-> | ->]; auto 6.
  - apply Permutation_sym in Hp.
    apply (Permutation_cons_app_inv [a; b] []) in Hp.
    apply Permutation_sym, Permutation_length_2_inv in Hp.
    destruct Hp as [-> | ->]; auto 7.
Qed.

Lemma load_antichain_steps (rt : runtime) (path which : string)
      (data : document) (br : branch) (e : expr) (v : value)
      (pts : list value) :
  read_yaml rt path = Some data ->
  lookup data which = Ok br ->
  lookup br "minimals" = Ok (Some e) ->
  eval rt e = Ok v ->
  iterate v = Ok pts ->
  load_antichain rt path which = load_points pts.
Proof.
  intros Hread Hbr Hraw Heval Hiter. unfold load_antichain.
  rewrite Hread. cbn [bind]. rewrite Hbr. cbn [bind].
  rewrite Hraw. cbn [bind]. rewrite Heval. cbn [bind].
  now rewrite Hiter.
Qed.

(** C2 as stated fails on tuples that are not all of three components or
    all of two.  A tuple of four components is read with its third as the
    time, not with time 0: the set {(1, 2, 3, 4)} loads with time 3.  In a
    set that mixes the sizes the time column is decided by the tuple that
    sorts first: {(1, 1, 5), (0, 0)} loads with times 0, 0, the time 5
    being lost.  Neither result is the points sorted with the times the
    claim gives them. *)
Lemma load_antichain_misreads_other_sizes :
  (load_antichain (example_runtime four_components_document)
     "out-query/output.yaml" "optimistic"
   = Ok ([2], [1], [3])
   /\ ~ exists sorted : list (list float),
        Permutation sorted [[1; 2; 3; 4]]
        /\ load_antichain (example_runtime four_components_document)
             "out-query/output.yaml" "optimistic"
           = Ok (map p_load sorted, map p_cost sorted, map p_time sorted))
  /\ (load_antichain (example_runtime mixed_sizes_document)
        "out-query/output.yaml" "optimistic"
      = Ok ([0; 1], [0; 1], [0; 0])
      /\ ~ exists sorted : list (list float),
           Permutation sorted [[1; 1; 5]; [0; 0]]
           /\ load_antichain (example_runtime mixed_sizes_document)
                "out-query/output.yaml" "optimistic"
              = Ok (map p_load sorted, map p_cost sorted,
                    map p_time sorted)).
Proof.
  split; (split; [vm_compute; reflexivity|]).
  - intros (sorted & Hp & H).
    apply Permutation_sym, Permutation_length_1_inv in Hp. subst sorted.
    vm_compute in H. discriminate.
  - intros (sorted & Hp & H).
    assert (Hin : In (p_time [1; 1; 5]) (map p_time sorted)).
    { apply in_map. eapply Permutation_in;
        [apply Permutation_sym; exact Hp | now left]. }
    replace (load_antichain (example_runtime mixed_sizes_document)
               "out-query/output.yaml" "optimistic")
      with (@Ok columns ([0; 1], [0; 1], [0; 0])) in H
      by (vm_compute; reflexivity).
    injection H as _ _ Ht. rewrite <- Ht in Hin.
    destruct Hin as [E | [E | []]]; vm_compute in E; discriminate.
Qed.

(** C2, amended.  For a set of tuples that all have three components, or
    all have two, and whose numbers are finite doubles (as every finite
    float is), [load_antichain] returns the points sorted
    lexicographically by (load, cost, time), a tuple read as
    (cost, load, time) when it has three components and as (cost, load)
    with time 0 when it has two.  For the set
    {(100.0, 50.0, 10.0), (90.0, 60.0, 5.0), (80.0, 40.0, 20.0)} under
    the branch optimistic it returns loads 40, 50, 60, costs 80, 100, 90
    and times 20, 10, 5, in whatever order the set is iterated. *)
Theorem load_antichain_sorted_by_load_cost_time :
  (forall (rt : runtime) (path which : string) (data : document)
          (br : branch) (e : expr) (v : value) (pts : list (list float)),
      read_yaml rt path = Some data ->
      lookup data which = Ok br ->
      lookup br "minimals" = Ok (Some e) ->
      eval rt e = Ok v ->
      iterate v = Ok (map tuple_of pts) ->
      fixed_size pts ->
      doubles pts ->
      exists sorted : list (list float),
        Permutation sorted pts
        /\ StronglySorted by_load_cost_time sorted
        /\ load_antichain rt path which
           = Ok (map p_load sorted, map p_cost sorted, map p_time sorted))
  /\ (forall (rt : runtime) (path : string),
         (forall vs, Permutation (set_order rt vs) vs) ->
         read_yaml rt path = Some example_document ->
         load_antichain rt path "optimistic"
         = Ok ([40; 50; 60], [80; 100; 90], [20; 10; 5])).
Proof.
  split.
  - intros rt path which data br e v pts Hread Hbr Hraw Heval Hiter Hfix Hd.
    exists (sort key3 tuple_lt pts). split; [apply sort_perm|]. split.
    + apply StronglySorted_mono
        with (R := fun a b => tuple_lt (key3 b) (key3 a) = false).
      * intros a b _ _. apply key3_order.
      * apply sort_ordered; [apply tuple_lt_asym | apply tuple_le_trans].
    + rewrite (load_antichain_steps rt path which data br e v _
                 Hread Hbr Hraw Heval Hiter).
      now apply load_points_fixed_size.
  - intros rt path Horder Hread.
    assert (Hset : Permutation (map tuple_of example_points)
                     (set_order rt (map tuple_of example_points)))
      by apply Permutation_sym, Horder.
    assert (Heval : eval rt example_minimals
                    = Ok (VSet false
                            (set_order rt (map tuple_of example_points))))
      by reflexivity.
    rewrite (load_antichain_steps rt path "optimistic" example_document
               _ example_minimals _ _ Hread eq_refl eq_refl Heval eq_refl).
    apply permutation_of_three in Hset.
    destruct Hset as [-> | [-> | [-> | [-> | [-> | ->]]]]];
      vm_compute; reflexivity.
Qed.

Example load_antichain_example_run :
  load_antichain (example_runtime example_document)
    "out-query/output.yaml" "optimistic"
  = Ok ([40; 50; 60], [80; 100; 90], [20; 10; 5]).
Proof. vm_compute. reflexivity. Qed.

Lemma load_antichain_sorted_witness :
  exists sorted : list (list float),
    Permutation sorted example_points
    /\ StronglySorted by_load_cost_time sorted
    /\ load_antichain (example_runtime example_document)
         "out-query/output.yaml" "optimistic"
       = Ok (map p_load sorted, map p_cost sorted, map p_time sorted).
Proof.
  apply (proj1 load_antichain_sorted_by_load_cost_time
           (example_runtime example_document)
           "out-query/output.yaml"%string "optimistic"%string
           example_document
           [("minimals"%string, Some example_minimals)]
           example_minimals
           (VSet false (map tuple_of example_points))
           example_points);
    try reflexivity.
  - left. repeat constructor.
  - repeat constructor; vm_compute; reflexivity.
Defined.

(** C3, at an input where the code departs from it.  The list display
    [[(1.0, 2.0, 3.0)]] is outside the grammar of numeric literals and
    tuple and set syntax, yet [eval] evaluates it and loading succeeds
    with the point it holds. *)
Theorem load_antichain_evaluates_a_list_display :
  in_grammar list_minimals = false
  /\ (forall (rt : runtime) (path : string),
         read_yaml rt path = Some list_document ->
         load_antichain rt path "optimistic" = Ok ([2], [1], [3])).
Proof.
  split; [reflexivity|].
  intros rt path Hread. unfold load_antichain. rewrite Hread. reflexivity.
Qed.

(** *** Loading in general *)


Lemma traverse_raises {A B : Type} (f : A -> result B) (e0 : exn)
      (l : list A) :
  Forall (fun x => (exists y, f x = Ok y) \/ f x = Raise e0) l ->
  Exists (fun x => f x = Raise e0) l ->
  traverse f l = Raise e0.
Proof.
  induction 1 as [|x xs Hx Hxs IH]; intros Hex; [inversion Hex|].
  simpl. destruct Hx as [[y Hy] | Hx]; [|now rewrite Hx].
  rewrite Hy. cbn [bind]. rewrite IH; [reflexivity|].
  inversion Hex as [? ? H | ? ? H]; subst; [congruence | exact H].
Qed.






(** *** Tuples of numbers of any size *)

Lemma sort_key_numbers (p : list float) :
  Forall is_double p ->
  (2 <= length p)%nat -> sort_key (tuple_of p) = Ok (code_key p).
Proof.
  intros Hp Hlen. unfold sort_key. rewrite !(item_double p _ Hp).
  destruct p as [|c [|l [|t r]]]; simpl in Hlen; try lia; reflexivity.
Qed.

Lemma sort_key_short (p : list float) :
  (length p < 2)%nat -> sort_key (tuple_of p) = Raise IndexError.
Proof.
  destruct p as [|c [|l r]]; simpl; try lia; intros _; reflexivity.
Qed.

Lemma item_numbers (p : list float) :
  Forall is_double p ->
  (2 <= length p)%nat ->
  item (tuple_of p) 1 = Ok (second p) /\ item (tuple_of p) 0 = Ok (first p).
Proof.
  intros Hp Hlen. rewrite !(item_double p _ Hp).
  destruct p as [|c [|l r]]; simpl in Hlen; try lia. now split.
Qed.

Lemma item_third (p : list float) :
  Forall is_double p ->
  (2 <= length p)%nat ->
  item (tuple_of p) 2
  = if (3 <=? length p)%nat then Ok (third p) else Raise IndexError.
Proof.
  intros Hp Hlen. rewrite (item_double p 2 Hp).
  destruct p as [|c [|l [|t r]]]; simpl in Hlen; try lia; reflexivity.
Qed.

Lemma forallb_false {A : Type} (f : A -> bool) (l : list A) :
  forallb f l = false -> Exists (fun x => f x = false) l.
Proof.
  induction l as [|x xs IH]; simpl; [discriminate|].
  destruct (f x) eqn:E; simpl; intros H.
  - right. now apply IH.
  - now left.
Qed.

Lemma sort_points_numbers (pts : list (list float)) :
  doubles pts ->
  Forall (fun p => (2 <= length p)%nat) pts ->
  sort_points (map tuple_of pts)
  = Ok (map tuple_of (sort code_key tuple_lt pts)).
Proof.
  intros Hd Hall. unfold sort_points.
  rewrite traverse_premap.
  rewrite traverse_map with (g := fun p => (code_key p, tuple_of p)).
  - simpl. f_equal.
    rewrite sort_map with (key := code_key) by reflexivity.
    now rewrite map_map.
  - unfold doubles in Hd. rewrite Forall_forall in *. intros p Hin.
    now rewrite (sort_key_numbers p (Hd p Hin) (Hall p Hin)).
Qed.

(** X18.  Loading tuples of whatever sizes whose numbers are finite
    doubles (as every finite float is).  With at least two components in
    every tuple the rows are sorted by the key of the code, loads and
    costs are the second and first components, and the time column is
    decided by the first tuple in sorted order: if it has three or more
    components the times are the third components, and the load raises
    [IndexError] when some tuple has only two; if it has two, every time
    is 0, also for longer tuples.  A tuple with fewer than two components
    raises [IndexError]. *)
Theorem load_points_numeric_tuples (pts : list (list float)) :
  doubles pts ->
  (Forall (fun p => (2 <= length p)%nat) pts ->
   load_points (map tuple_of pts)
   = match sort code_key tuple_lt pts with
     | [] => Ok ([], [], [])
     | p0 :: rest =>
         if (3 <=? length p0)%nat
         then if forallb (fun p => (3 <=? length p)%nat) (p0 :: rest)
              then Ok (map second (p0 :: rest), map first (p0 :: rest),
                       map third (p0 :: rest))
              else Raise IndexError
         else Ok (map second (p0 :: rest), map first (p0 :: rest),
                  map (fun _ => 0) (p0 :: rest))
     end)
  /\ (Exists (fun p => (length p < 2)%nat) pts ->
      load_points (map tuple_of pts) = Raise IndexError).
Proof.
  intros Hd. split.
  - intros Hall. destruct pts as [|q qs]; [reflexivity|].
    unfold load_points. cbn [map].
    change (tuple_of q :: map tuple_of qs) with (map tuple_of (q :: qs)).
    set (pts := q :: qs) in *.
    rewrite (sort_points_numbers pts Hd Hall). cbn [bind].
    assert (Hperm : Permutation (sort code_key tuple_lt pts) pts)
      by apply sort_perm.
    assert (Hsorted : Forall (fun p => (2 <= length p)%nat)
                        (sort code_key tuple_lt pts))
      by (eapply Permutation_Forall; [apply Permutation_sym, Hperm | exact Hall]).
    assert (Hds : doubles (sort code_key tuple_lt pts))
      by (eapply doubles_perm; [apply Permutation_sym, Hperm | exact Hd]).
    destruct (sort code_key tuple_lt pts) as [|p0 rest] eqn:Es.
    { apply Permutation_nil in Hperm. discriminate. }
    unfold doubles in Hds. rewrite Forall_forall in Hsorted, Hds.
    rewrite !traverse_premap.
    rewrite traverse_map with (g := second);
      [|apply Forall_forall; intros p Hin;
        now destruct (item_numbers p (Hds p Hin) (Hsorted p Hin))].
    rewrite traverse_map with (g := first);
      [|apply Forall_forall; intros p Hin;
        now destruct (item_numbers p (Hds p Hin) (Hsorted p Hin))].
    cbn [bind map]. unfold getitem. cbn [nth_error bind].
    unfold tuple_of at 1. cbn [len bind]. rewrite length_map.
    destruct (3 <=? length p0)%nat eqn:E0.
    + destruct (forallb (fun p => (3 <=? length p)%nat) (p0 :: rest)) eqn:Ef.
      * rewrite traverse_map with (g := third); [reflexivity|].
        rewrite forallb_forall in Ef. apply Forall_forall.
        intros p Hin. rewrite (item_third p (Hds p Hin) (Hsorted p Hin)).
        now rewrite (Ef p Hin).
      * rewrite traverse_raises with (e0 := IndexError); [reflexivity| |].
        -- apply Forall_forall. intros p Hin.
           rewrite (item_third p (Hds p Hin) (Hsorted p Hin)).
           destruct (3 <=? length p)%nat; [left; eauto | now right].
        -- apply forallb_false in Ef.
           rewrite Exists_exists in *. destruct Ef as (p & Hin & Hp).
           exists p. split; [exact Hin|].
           rewrite (item_third p (Hds p Hin) (Hsorted p Hin)).
           now rewrite Hp.
    + cbn [bind]. change (tuple_of p0 :: map tuple_of rest)
        with (map tuple_of (p0 :: rest)).
      now rewrite map_map.
  - intros Hex. destruct pts as [|q qs]; [inversion Hex|].
    unfold load_points, sort_points. cbn [map].
    change (tuple_of q :: map tuple_of qs) with (map tuple_of (q :: qs)).
    rewrite traverse_premap.
    unfold doubles in Hd. rewrite Forall_forall in Hd.
    rewrite traverse_raises with (e0 := IndexError); [reflexivity| |].
    + apply Forall_forall. intros p Hin.
      destruct (Nat.lt_ge_cases (length p) 2) as [Hp | Hp].
      * right. now rewrite (sort_key_short p Hp).
      * left. rewrite (sort_key_numbers p (Hd p Hin) Hp). cbn [bind]. eauto.
    + rewrite Exists_exists in *. destruct Hex as (p & Hin & Hp).
      exists p. split; [exact Hin|]. now rewrite (sort_key_short p Hp).
Qed.

(** Two mixed sets and a set of four-component tuples; and an integer too
    large for a double. *)
Example load_points_mixed_sizes :
  load_points (map tuple_of [[1; 1; 5]; [0; 0]]) = Ok ([0; 1], [0; 1], [0; 0])
  /\ load_points (map tuple_of [[0; 0; 5]; [1; 1]]) = Raise IndexError
  /\ load_points (map tuple_of [[1; 2; 3; 4]]) = Ok ([2], [1], [3])
  /\ load_points (map tuple_of [[1; inject_Z (10 ^ 400); 3]])
     = Raise OverflowError.
Proof. repeat split; vm_compute; reflexivity. Qed.

Lemma load_points_numeric_tuples_witness :
  load_points (map tuple_of [[1; 1; 5]; [0; 0]])
  = Ok ([0; 1], [0; 1], [0; 0]).
Proof.
  assert (Hd : doubles [[1; 1; 5]; [0; 0]])
    by (repeat constructor; vm_compute; reflexivity).
  assert (Hall : Forall (fun p : list float => (2 <= length p)%nat)
                   [[1; 1; 5]; [0; 0]])
    by (repeat constructor; simpl; lia).
  exact (proj1 (load_points_numeric_tuples [[1; 1; 5]; [0; 0]] Hd) Hall).
Defined.

End LoaderFacts.

(** ** The run *)

Module PlotterFacts.
Import Py PyFacts Loader Plotter.
Local Open Scope py_scope.

Lemma quiet_ok {A : Type} (a : A) : quiet (Ok a).
Proof. intros m. discriminate. Qed.

Lemma quiet_bind {A B : Type} (r : result A) (k : A -> result B) :
  quiet r -> (forall a, quiet (k a)) -> quiet (bind r k).
Proof.
  intros Hr Hk m. destruct r as [a|e]; simpl.
  - apply Hk.
  - intros H. injection H as ->. now apply (Hr m).
Qed.

Lemma quiet_traverse {A B : Type} (f : A -> result B) (l : list A) :
  Forall (fun x => quiet (f x)) l -> quiet (traverse f l).
Proof.
  induction 1 as [|x xs Hx _ IH]; simpl.
  - apply quiet_ok.
  - apply quiet_bind; trivial. intros y.
    apply quiet_bind; trivial. intros ys. apply quiet_ok.
Qed.

Lemma quiet_getitem {A : Type} (l : list A) (i : nat) : quiet (getitem l i).
Proof. unfold getitem. destruct (nth_error l i); intros m; discriminate. Qed.

Lemma quiet_lookup {A : Type} (d : list (string * A)) (k : string) :
  quiet (lookup d k).
Proof.
  induction d as [|[k' v] d IH]; simpl.
  - intros m. discriminate.
  - destruct (String.eqb k' k); [apply quiet_ok | exact IH].
Qed.

Lemma quiet_iterate (v : value) : quiet (iterate v).
Proof. destruct v; intros m; discriminate. Qed.

Lemma quiet_make_set (rt : runtime) (frozen : bool) (vs : list value) :
  quiet (make_set rt frozen vs).
Proof.
  unfold make_set. destruct (forallb hashable vs); intros m; discriminate.
Qed.

Lemma expr_induction (P : expr -> Prop) :
  (forall x, P (ENum x)) ->
  (forall es, Forall P es -> P (ETuple es)) ->
  (forall es, Forall P es -> P (ESet es)) ->
  (forall es, Forall P es -> P (EList es)) ->
  P (EFrozenset None) ->
  (forall arg, P arg -> P (EFrozenset (Some arg))) ->
  forall e, P e.
Proof.
  intros Hn Ht Hs Hl Hf0 Hf. fix IH 1.
  intros [x|es|es|es|[arg|]].
  - apply Hn.
  - apply Ht. induction es as [|e es IHes]; constructor; auto.
  - apply Hs. induction es as [|e es IHes]; constructor; auto.
  - apply Hl. induction es as [|e es IHes]; constructor; auto.
  - apply Hf, IH.
  - apply Hf0.
Qed.

Lemma quiet_eval (rt : runtime) (e : expr) : quiet (eval rt e).
Proof.
  induction e as [x|es IH|es IH|es IH| |arg IH] using expr_induction;
    simpl; try apply quiet_ok.
  - apply quiet_bind; [now apply quiet_traverse|]. intros; apply quiet_ok.
  - apply quiet_bind; [now apply quiet_traverse|].
    intros; apply quiet_make_set.
  - apply quiet_bind; [now apply quiet_traverse|]. intros; apply quiet_ok.
  - apply quiet_bind; trivial. intros v.
    apply quiet_bind; [apply quiet_iterate|]. intros; apply quiet_make_set.
Qed.

Lemma quiet_item (p : value) (i : nat) : quiet (item p i).
Proof.
  unfold item. apply quiet_bind.
  - destruct p; simpl; try apply quiet_getitem; intros m; discriminate.
  - intros v. destruct v as [x| | |]; simpl;
      try destruct (round_double x); intros m; discriminate.
Qed.

Lemma quiet_len (p : value) : quiet (len p).
Proof. destruct p; intros m; discriminate. Qed.

Lemma quiet_traverse_all {A B : Type} (f : A -> result B) (l : list A) :
  (forall x, quiet (f x)) -> quiet (traverse f l).
Proof. intros H. apply quiet_traverse, Forall_forall. auto. Qed.

Lemma quiet_sort_key (p : value) : quiet (sort_key p).
Proof.
  unfold sort_key.
  repeat (apply quiet_bind;
          [first [apply quiet_item | apply quiet_len] | intros ?]).
  apply quiet_bind; [|intros; apply quiet_ok].
  match goal with |- quiet (if ?b then _ else _) => destruct b end;
    [apply quiet_item | apply quiet_ok].
Qed.

Lemma quiet_load_points (pts : list value) : quiet (load_points pts).
Proof.
  unfold load_points, sort_points. destruct pts as [|p ps]; [apply quiet_ok|].
  apply quiet_bind.
  { apply quiet_bind; [|intros; apply quiet_ok].
    apply quiet_traverse_all. intros x.
    apply quiet_bind; [apply quiet_sort_key | intros; apply quiet_ok]. }
  intros pts.
  apply quiet_bind; [apply quiet_traverse_all; intros; apply quiet_item|].
  intros loads.
  apply quiet_bind; [apply quiet_traverse_all; intros; apply quiet_item|].
  intros costs.
  apply quiet_bind; [apply quiet_getitem|]. intros p0.
  apply quiet_bind; [apply quiet_len|]. intros n0.
  apply quiet_bind; [|intros; apply quiet_ok].
  destruct (3 <=? n0)%nat; [|apply quiet_ok].
  apply quiet_traverse_all; intros; apply quiet_item.
Qed.

Lemma quiet_load_antichain (rt : runtime) (path which : string) :
  quiet (load_antichain rt path which).
Proof.
  unfold load_antichain.
  apply quiet_bind.
  { destruct (read_yaml rt path); [apply quiet_ok|].
    destruct (read_failure rt path); intros m; discriminate. }
  intros data. apply quiet_bind; [apply quiet_lookup|]. intros br.
  apply quiet_bind; [apply quiet_lookup|]. intros raw.
  apply quiet_bind.
  { destruct raw; [apply quiet_eval | intros m; discriminate]. }
  intros v. apply quiet_bind; [apply quiet_iterate|].
  intros pts. apply quiet_load_points.
Qed.

(** Peel one [bind] off a hypothesis that says the whole succeeded. *)
Ltac bind_ok H :=
  match type of H with
  | bind ?r _ = Ok _ =>
      let E := fresh "E" in
      destruct r eqn:E; cbn [bind] in H; [|discriminate H]
  end.

(** The three columns have one length. *)
Lemma load_points_lengths (pts : list value) (loads costs times : list float) :
  load_points pts = Ok (loads, costs, times) ->
  length costs = length loads /\ length times = length loads.
Proof.
  unfold load_points. destruct pts as [|p ps].
  - intros H. injection H as <- <- <-. now split.
  - intros H. bind_ok H. bind_ok H. bind_ok H. bind_ok H. bind_ok H.
    bind_ok H. injection H as <- <- <-.
    apply traverse_length in E0, E1.
    split; [congruence|].
    match goal with
    | Ht : (if (3 <=? ?n)%nat then _ else _) = Ok _ |- _ =>
        destruct (3 <=? n)%nat;
        [apply traverse_length in Ht
        |injection Ht as <-; rewrite length_map]
    end; congruence.
Qed.

Lemma load_antichain_lengths (rt : runtime) (path which : string)
      (loads costs times : list float) :
  load_antichain rt path which = Ok (loads, costs, times) ->
  length costs = length loads /\ length times = length loads.
Proof.
  unfold load_antichain. intros H.
  bind_ok H. bind_ok H. bind_ok H. bind_ok H. bind_ok H.
  now apply load_points_lengths in H.
Qed.

(** *** Labels *)

Lemma range_bound (stop step i : Z) :
  (0 < step)%Z -> In i (range 0 stop step) -> (0 <= i < stop)%Z.
Proof.
  unfold range. intros Hstep Hin. apply in_map_iff in Hin.
  destruct Hin as (k & <- & Hk). apply in_seq in Hk.
  destruct (0 <? stop)%Z eqn:E.
  - apply Z.ltb_lt in E.
    assert (Hq : (0 <= (stop - 1 - 0) / step)%Z)
      by (apply Z.div_pos; lia).
    assert (Hm : (step * ((stop - 1 - 0) / step) <= stop - 1 - 0)%Z)
      by (apply Z.mul_div_le; lia).
    nia.
  - simpl in Hk. lia.
Qed.

Lemma label_indices_bound (n : nat) (cap : Z) (idxs : list nat) :
  label_indices n cap = Ok idxs -> Forall (fun i => (i < n)%nat) idxs.
Proof.
  unfold label_indices. rewrite Forall_forall.
  destruct (Z.of_nat n <=? cap)%Z.
  - intros H i Hi. injection H as <-. apply in_seq in Hi. lia.
  - destruct (cap =? 0)%Z; [discriminate|].
    intros H i Hi. injection H as <-.
    apply in_map_iff in Hi. destruct Hi as (z & <- & Hz).
    apply range_bound in Hz; lia.
Qed.

Lemma label_indices_raises (n : nat) (cap : Z) (e : exn) :
  label_indices n cap = Raise e -> cap = 0%Z /\ e = ZeroDivisionError.
Proof.
  unfold label_indices.
  destruct (Z.of_nat n <=? cap)%Z; [discriminate|].
  destruct (cap =? 0)%Z eqn:E; [|discriminate].
  intros H. injection H as <-. apply Z.eqb_eq in E. now split.
Qed.

Lemma getitem_in_range {A : Type} (l : list A) (i : nat) :
  (i < length l)%nat -> exists x, getitem l i = Ok x.
Proof.
  intros Hi. unfold getitem. destruct (nth_error l i) as [x|] eqn:E.
  - now exists x.
  - apply nth_error_None in E. lia.
Qed.

Lemma annotate_in_range (loads costs times : list float) (i : nat) :
  length costs = length loads -> length times = length loads ->
  (i < length loads)%nat ->
  exists ann, annotate loads costs times i = Ok ann.
Proof.
  intros Hc Ht Hi. unfold annotate.
  destruct (getitem_in_range costs i) as [c Ec]; [lia|].
  destruct (getitem_in_range loads i) as [l El]; [lia|].
  destruct (getitem_in_range times i) as [t Et]; [lia|].
  rewrite Ec, El, Et. cbn [bind]. eauto.
Qed.

Lemma traverse_total {A B : Type} (f : A -> result B) (l : list A) :
  Forall (fun x => exists y, f x = Ok y) l -> exists ys, traverse f l = Ok ys.
Proof.
  induction 1 as [|x xs [y Hy] _ [ys IH]]; simpl.
  - now exists [].
  - rewrite Hy, IH. cbn [bind]. eauto.
Qed.

Lemma quiet_annotate (loads costs times : list float) (i : nat) :
  quiet (annotate loads costs times i).
Proof.
  unfold annotate.
  repeat (apply quiet_bind; [apply quiet_getitem | intros ?]).
  apply quiet_ok.
Qed.

Lemma quiet_fmax (xs : list float) : quiet (fmax xs).
Proof. destruct xs; intros m; discriminate. Qed.

Lemma quiet_label_indices (n : nat) (cap : Z) : quiet (label_indices n cap).
Proof.
  intros m H. apply label_indices_raises in H. destruct H as [_ H].
  discriminate.
Qed.

Lemma quiet_shade_dominated_region (fl fc : list float) (x y : float) :
  quiet (Shading.shade_dominated_region fl fc x y).
Proof.
  unfold Shading.shade_dominated_region. destruct fl; [apply quiet_ok|].
  apply quiet_bind; [apply quiet_getitem | intros; apply quiet_ok].
Qed.

(** *** The stages of [main] *)

Lemma slice_step_raises (a : args) (cols : columns) (e : exn) :
  slice_step a cols = Raise e ->
  exists t, time_max a = Some t
            /\ e = RuntimeError (msg_filtered t)
            /\ fst (fst (time_slice t cols)) = [].
Proof.
  unfold slice_step. destruct (time_max a) as [t|]; [|discriminate].
  destruct (fst (fst (time_slice t cols))) eqn:E; [|discriminate].
  intros H. injection H as <-. now exists t.
Qed.

Lemma shade_step_runtime_error (a : args) (loads costs : list float)
      (x y : float) (m : message) :
  shade_step a loads costs x y = Raise (RuntimeError m) ->
  m = msg_slice /\ shade a = ShadeSlice /\ time_max a = None.
Proof.
  assert (Hq : quiet (f_loads <- Frontier.pick loads
                                   (Frontier.pareto_2d_min loads costs) ;;
                      f_costs <- Frontier.pick costs
                                   (Frontier.pareto_2d_min loads costs) ;;
                      Shading.shade_dominated_region f_loads f_costs x y)).
  { apply quiet_bind;
      [apply quiet_traverse_all; intros; apply quiet_getitem | intros fl].
    apply quiet_bind;
      [apply quiet_traverse_all; intros; apply quiet_getitem | intros fc].
    apply quiet_shade_dominated_region. }
  unfold shade_step.
  destruct (shade a); [discriminate| |].
  - destruct (time_max a); intros H; now apply Hq in H.
  - destruct (time_max a); intros H; [now apply Hq in H|].
    injection H as <-. now repeat split.
Qed.

Lemma quiet_axis_limits (loads costs : list float) :
  quiet (axis_limits loads costs).
Proof.
  assert (Hlim : forall lo hi, quiet (set_lim lo hi))
    by (intros [l|] [h|] m; discriminate).
  unfold axis_limits.
  apply quiet_bind; [apply quiet_fmax | intros ml].
  apply quiet_bind; [apply quiet_fmax | intros mc].
  apply quiet_bind; [apply Hlim | intros xl].
  apply quiet_bind; [apply Hlim | intros yl]. apply quiet_ok.
Qed.

Lemma quiet_savefig (rt : runtime) (out : string) (fig : figure) :
  quiet (savefig rt out fig).
Proof.
  unfold savefig. destruct (write_failure rt out) as [[|]|]; intros m;
    discriminate.
Qed.

Lemma render_runtime_error (rt : runtime) (a : args) (cols : columns)
      (m : message) :
  render rt a cols = Raise (RuntimeError m) ->
  m = msg_slice /\ shade a = ShadeSlice /\ time_max a = None.
Proof.
  destruct cols as [[loads costs] times]. unfold render. intros H.
  destruct (label_indices (length loads) (label_max a)) as [idxs|e] eqn:E1;
    cbn [bind] in H.
  2:{ injection H as ->. now apply quiet_label_indices in E1. }
  destruct (traverse (annotate loads costs times) idxs) as [anns|e] eqn:E2;
    cbn [bind] in H.
  2:{ injection H as ->.
      apply quiet_traverse_all in E2; [easy | intros; apply quiet_annotate]. }
  destruct (axis_limits loads costs) as [lims|e] eqn:E3; cbn [bind] in H.
  2:{ injection H as ->. now apply quiet_axis_limits in E3. }
  destruct (shade_step a loads costs (snd (fst lims)) (snd (snd lims)))
    as [sh|e] eqn:E5; cbn [bind] in H.
  - now apply quiet_savefig in H.
  - injection H as ->. now apply shade_step_runtime_error in E5.
Qed.

(** A run that has drawn its labels and set its axis limits reaches the
    shading step, which raises when slice shading has no ceiling. *)
Lemma render_slice_without_ceiling (rt : runtime) (a : args)
      (loads costs times : list float) (idxs : list nat)
      (anns : list annotation) (lims : (float * float) * (float * float)) :
  shade a = ShadeSlice -> time_max a = None ->
  label_indices (length loads) (label_max a) = Ok idxs ->
  traverse (annotate loads costs times) idxs = Ok anns ->
  axis_limits loads costs = Ok lims ->
  render rt a (loads, costs, times) = Raise (RuntimeError msg_slice).
Proof.
  intros Hshade Htime Hidx Hann Hlims. unfold render.
  rewrite Hidx. cbn [bind]. rewrite Hann. cbn [bind].
  rewrite Hlims. cbn [bind].
  unfold shade_step. now rewrite Hshade, Htime.
Qed.

(** On finite floats the labels are drawn whenever the label cap is not
    zero and the columns have one length. *)
Lemma labels_drawn (a : args) (loads costs times : list float) :
  label_max a <> 0%Z ->
  length costs = length loads -> length times = length loads ->
  exists idxs anns,
    label_indices (length loads) (label_max a) = Ok idxs
    /\ traverse (annotate loads costs times) idxs = Ok anns.
Proof.
  intros Hcap Hc Ht.
  destruct (label_indices (length loads) (label_max a)) as [idxs|e] eqn:E1.
  2:{ apply label_indices_raises in E1. now destruct E1. }
  destruct (traverse_total (annotate loads costs times) idxs) as [anns Ha].
  { apply label_indices_bound in E1.
    eapply Forall_impl; [|exact E1].
    intros i Hi. now apply annotate_in_range. }
  now exists idxs, anns.
Qed.

Section Main.
Variable rt : runtime.
Variable a : args.

Let loaded : result columns :=
  load_antichain rt (path a) (branch_name (which a)).

Lemma main_empty (cols : columns) :
  loaded = Ok cols -> fst (fst cols) = [] ->
  main rt a = Raise (RuntimeError msg_empty).
Proof.
  unfold loaded, main. intros -> Hnil. cbn [bind]. now rewrite Hnil.
Qed.

Lemma main_nonempty (cols : columns) :
  loaded = Ok cols -> fst (fst cols) <> [] ->
  main rt a = (cols' <- slice_step a cols ;; render rt a cols').
Proof.
  unfold loaded, main. intros -> Hne. cbn [bind].
  destruct (fst (fst cols)); [congruence | reflexivity].
Qed.

Lemma main_filtered (cols : columns) (t : float) :
  loaded = Ok cols -> fst (fst cols) <> [] ->
  time_max a = Some t -> fst (fst (time_slice t cols)) = [] ->
  main rt a = Raise (RuntimeError (msg_filtered t)).
Proof.
  intros Hload Hne Ht Hnil. rewrite (main_nonempty cols Hload Hne).
  unfold slice_step. now rewrite Ht, Hnil.
Qed.

Lemma main_slice (loads costs times : list float) (idxs : list nat)
      (anns : list annotation) (lims : (float * float) * (float * float)) :
  loaded = Ok (loads, costs, times) -> loads <> [] ->
  shade a = ShadeSlice -> time_max a = None ->
  label_indices (length loads) (label_max a) = Ok idxs ->
  traverse (annotate loads costs times) idxs = Ok anns ->
  axis_limits loads costs = Ok lims ->
  main rt a = Raise (RuntimeError msg_slice).
Proof.
  intros Hload Hne Hshade Ht Hidx Hann Hlims.
  rewrite (main_nonempty (loads, costs, times) Hload Hne).
  unfold slice_step. rewrite Ht. cbn [bind].
  now apply (render_slice_without_ceiling rt a loads costs times
               idxs anns lims).
Qed.

(** On finite floats: a non-empty point set, a label cap other than zero
    and finite axis limits are enough. *)
Lemma main_slice_finite (cols : columns)
      (lims : (float * float) * (float * float)) :
  loaded = Ok cols -> fst (fst cols) <> [] ->
  shade a = ShadeSlice -> time_max a = None -> label_max a <> 0%Z ->
  axis_limits (fst (fst cols)) (snd (fst cols)) = Ok lims ->
  main rt a = Raise (RuntimeError msg_slice).
Proof.
  destruct cols as [[loads costs] times]. simpl fst. simpl snd.
  intros Hload Hne Hshade Ht Hcap Hlims.
  destruct (load_antichain_lengths _ _ _ _ _ _ Hload) as [Hc Hti].
  destruct (labels_drawn a loads costs times Hcap Hc Hti)
    as (idxs & anns & Hidx & Hann).
  now apply (main_slice loads costs times idxs anns lims).
Qed.

(** Every way [main] raises a [RuntimeError]. *)
Lemma main_runtime_error (m : message) :
  main rt a = Raise (RuntimeError m) ->
  exists cols,
    loaded = Ok cols
    /\ ((fst (fst cols) = [] /\ m = msg_empty)
        \/ (fst (fst cols) <> []
            /\ exists t, time_max a = Some t /\ m = msg_filtered t
                         /\ fst (fst (time_slice t cols)) = [])
        \/ (fst (fst cols) <> [] /\ m = msg_slice
            /\ shade a = ShadeSlice /\ time_max a = None)).
Proof.
  intros H. destruct loaded as [cols|e] eqn:Hload.
  2:{ exfalso. unfold main in H. fold loaded in H. rewrite Hload in H.
      cbn [bind] in H. injection H as ->.
      now apply quiet_load_antichain in Hload. }
  exists cols. split; trivial.
  destruct (fst (fst cols)) as [|l ls] eqn:Hl.
  - left. split; trivial.
    rewrite (main_empty cols Hload Hl) in H. now injection H as <-.
  - right.
    assert (Hne : fst (fst cols) <> []) by (rewrite Hl; discriminate).
    rewrite (main_nonempty cols Hload Hne) in H.
    destruct (slice_step a cols) as [cols'|e] eqn:Hs; cbn [bind] in H.
    + right. apply render_runtime_error in H.
      split; [discriminate | exact H].
    + left. split; [discriminate|].
      injection H as ->. apply slice_step_raises in Hs.
      destruct Hs as (t & Ht & Hm & Hnil).
      injection Hm as ->. now exists t.
Qed.

End Main.

(** C4.  The run ends in an empty-result error if and only if the point
    set is empty after loading or becomes empty under the time-ceiling
    filter; the error of the filtering case is raised exactly when a
    non-empty set is emptied by the ceiling given, and its message carries
    that ceiling; in neither case is an image written. *)
Theorem main_empty_result (rt : runtime) (a : args) :
  ((exists e, main rt a = Raise e /\ empty_result e)
   <-> exists cols,
        load_antichain rt (path a) (branch_name (which a)) = Ok cols
        /\ (fst (fst cols) = []
            \/ exists t, time_max a = Some t
                         /\ fst (fst (time_slice t cols)) = []))
  /\ (forall t,
         main rt a = Raise (RuntimeError (msg_filtered t))
         <-> exists cols,
              load_antichain rt (path a) (branch_name (which a)) = Ok cols
              /\ fst (fst cols) <> []
              /\ time_max a = Some t
              /\ fst (fst (time_slice t cols)) = [])
  /\ (forall e,
         main rt a = Raise e -> empty_result e ->
         image_written (main rt a) = None).
Proof.
  split; [|split].
  - split.
    + intros (e & Hmain & [-> | [t ->]]);
        apply main_runtime_error in Hmain;
        destruct Hmain as (cols & Hload & Hcases); exists cols;
        (split; [exact Hload|]);
        destruct Hcases as [[Hnil _] | [(_ & t' & Ht & _ & Hnil) | (_ & Hm & _)]];
        try discriminate; eauto.
    + intros (cols & Hload & Hcases).
      destruct (fst (fst cols)) as [|l ls] eqn:Hl.
      * exists (RuntimeError msg_empty). split; [|now left].
        now apply main_empty with (cols := cols).
      * destruct Hcases as [Hnil | (t & Ht & Hnil)]; [discriminate|].
        exists (RuntimeError (msg_filtered t)). split; [|right; now exists t].
        apply main_filtered with (cols := cols); trivial.
        rewrite Hl. discriminate.
  - intros t. split.
    + intros Hmain. apply main_runtime_error in Hmain.
      destruct Hmain as (cols & Hload & Hcases). exists cols.
      destruct Hcases as [[_ Hm] | [(Hne & t' & Ht & Hm & Hnil) | (_ & Hm & _)]];
        try discriminate.
      injection Hm as ->. now repeat split.
    + intros (cols & Hload & Hne & Ht & Hnil).
      now apply main_filtered with (cols := cols).
  - intros e Hmain _. now rewrite Hmain.
Qed.




(** Runs of the amended property with slice shading and no ceiling: on
    three points the error is raised; on a point whose cost is the
    largest finite double the upper limit of the cost axis overflows, and
    [ax.set_ylim] raises before the shading step is reached; with a label
    cap of zero the labelling step raises before both. *)
Example main_slice_run :
  main (example_runtime example_document) slice_args
  = Raise (RuntimeError msg_slice)
  /\ main (example_runtime largest_cost_document) slice_args
     = Raise ValueError
  /\ main (example_runtime example_document) zero_cap_slice_args
     = Raise ZeroDivisionError.
Proof. repeat split; vm_compute; reflexivity. Qed.

(** C7, at an input where the code departs from it.  With five points and
    a label cap of three the step is [max(1, 5 // 3) = 1], so all five
    points are labelled. *)
Theorem label_cap_exceeded :
  label_indices 5 3 = Ok [0; 1; 2; 3; 4]%nat
  /\ exists fig,
      main (example_runtime five_points_document) cap_three_args
      = Ok ("wildfire_tradespace.png"%string, fig)
      /\ length (annotations fig) = 5%nat.
Proof.
  split; [reflexivity|].
  eexists. split; [vm_compute; reflexivity | reflexivity].
Qed.

(** *** The time filter *)

Lemma zip3_maps {A B C : Type} (F : list (A * B * C)) :
  zip (zip (map (fun x => fst (fst x)) F) (map (fun x => snd (fst x)) F))
    (map snd F) = F.
Proof.
  unfold zip. induction F as [|[[a b] c] F IH]; simpl; [trivial|].
  now rewrite IH.
Qed.

Lemma filter_length_le {A : Type} (f g : A -> bool) (l : list A) :
  (forall x, f x = true -> g x = true) ->
  (length (filter f l) <= length (filter g l))%nat.
Proof.
  intros Hfg. induction l as [|x xs IH]; simpl; [lia|].
  destruct (f x) eqn:Ef.
  - rewrite (Hfg x Ef). simpl. lia.
  - destruct (g x); simpl; lia.
Qed.

Lemma filter_filter {A : Type} (f g : A -> bool) (l : list A) :
  (forall x, f x = true -> g x = true) ->
  filter f (filter g l) = filter f l.
Proof.
  intros Hfg. induction l as [|x xs IH]; simpl; [trivial|].
  destruct (g x) eqn:Eg; simpl.
  - now rewrite IH.
  - destruct (f x) eqn:Ef; [|exact IH].
    rewrite (Hfg x Ef) in Eg. discriminate.
Qed.

Lemma fle_weaken (x t1 t2 : float) :
  t1 <= t2 -> fle x t1 = true -> fle x t2 = true.
Proof. intros Ht H. float_props. apply fle_true. lra. Qed.

(** X4.  The time filter is monotone: a lower ceiling never retains more
    points. *)
Theorem time_slice_monotone (t1 t2 : float) (cols : columns) :
  t1 <= t2 ->
  (length (fst (fst (time_slice t1 cols)))
   <= length (fst (fst (time_slice t2 cols))))%nat.
Proof.
  intros Ht. destruct cols as [[loads costs] times]. simpl.
  rewrite !length_map. apply filter_length_le.
  intros x. now apply fle_weaken.
Qed.

Lemma time_slice_monotone_witness :
  le (length (fst (fst (time_slice 5 ([1; 2], [3; 4], [4; 8])))))
    (length (fst (fst (time_slice 10 ([1; 2], [3; 4], [4; 8]))))).
Proof.
  apply (time_slice_monotone 5 10 ([1; 2], [3; 4], [4; 8])). lra.
Defined.

(** X5.  Filtering at a ceiling what was already filtered at a higher one
    is filtering at the lower ceiling; in particular the filter is
    idempotent. *)
Theorem time_slice_compose (t1 t2 : float) (cols : columns) :
  t1 <= t2 ->
  time_slice t1 (time_slice t2 cols) = time_slice t1 cols.
Proof.
  intros Ht. destruct cols as [[loads costs] times].
  unfold time_slice at 2.
  set (F := filter (fun x => fle (snd x) t2) (zip (zip loads costs) times)).
  unfold time_slice. rewrite zip3_maps. unfold F.
  rewrite filter_filter; [reflexivity|].
  intros x. now apply fle_weaken.
Qed.

Lemma time_slice_compose_witness :
  time_slice 5 (time_slice 10 ([1; 2; 3], [3; 4; 5], [4; 8; 12]))
  = time_slice 5 ([1; 2; 3], [3; 4; 5], [4; 8; 12]).
Proof.
  apply (time_slice_compose 5 10 ([1; 2; 3], [3; 4; 5], [4; 8; 12])). lra.
Defined.

(** X6.  What the filter retains: the three columns keep one length, every
    retained time is at most the ceiling, and the retained points are the
    input rows with such a time, in their order. *)
Theorem time_slice_retains (t : float) (loads costs times : list float) :
  let '(loads', costs', times') := time_slice t (loads, costs, times) in
  length costs' = length loads'
  /\ length times' = length loads'
  /\ Forall (fun x => x <= t) times'
  /\ zip (zip loads' costs') times'
     = filter (fun x => fle (snd x) t) (zip (zip loads costs) times).
Proof.
  simpl. rewrite !length_map. repeat split.
  - rewrite Forall_forall. intros x Hx.
    apply in_map_iff in Hx. destruct Hx as (r & <- & Hr).
    apply filter_In in Hr. destruct Hr as [_ Hr]. now apply fle_true.
  - apply zip3_maps.
Qed.

(** *** The labelled indices *)

Lemma range_unit_step (n : nat) :
  map Z.to_nat (range 0 (Z.of_nat n) 1) = seq 0 n.
Proof.
  unfold range. destruct n as [|n].
  - reflexivity.
  - replace (0 <? Z.of_nat (S n))%Z with true
      by (symmetry; apply Z.ltb_lt; lia).
    rewrite Z.div_1_r.
    replace (Z.to_nat (1 + (Z.of_nat (S n) - 1 - 0))) with (S n) by lia.
    rewrite map_map. rewrite <- (map_id (seq 0 (S n))) at 2.
    apply map_ext. intros k. lia.
Qed.

(** X7.  With a cap of at least one and more points than the cap, the
    labelled indices are exactly the multiples of [n // label_max] below
    [n], each once and in ascending order; there are at least as many as
    the cap and at most twice the cap less one.  With no more points than
    the cap every point is labelled. *)
Theorem label_indices_spacing (n : nat) (cap : Z) :
  ((Z.of_nat n <= cap)%Z -> label_indices n cap = Ok (seq 0 n))
  /\ ((1 <= cap < Z.of_nat n)%Z ->
      exists count : nat,
        label_indices n cap
        = Ok (map (fun k => (k * Z.to_nat (Z.of_nat n / cap))%nat)
                (seq 0 count))
        /\ (cap <= Z.of_nat count <= 2 * cap - 1)%Z
        /\ ((count - 1) * Z.to_nat (Z.of_nat n / cap) < n)%nat
        /\ (n <= count * Z.to_nat (Z.of_nat n / cap))%nat
        /\ (forall i : nat,
               In i (map (fun k => (k * Z.to_nat (Z.of_nat n / cap))%nat)
                       (seq 0 count))
               <-> (i < n)%nat
                   /\ exists k : nat,
                        i = (k * Z.to_nat (Z.of_nat n / cap))%nat)).
Proof.
  split.
  - intros Hle. unfold label_indices.
    now replace (Z.of_nat n <=? cap)%Z with true
      by (symmetry; apply Z.leb_le; lia).
  - intros [Hcap Hn]. unfold label_indices.
    replace (Z.of_nat n <=? cap)%Z with false
      by (symmetry; apply Z.leb_gt; lia).
    replace (cap =? 0)%Z with false by (symmetry; apply Z.eqb_neq; lia).
    set (q := (Z.of_nat n / cap)%Z).
    assert (Hq : (1 <= q)%Z)
      by (apply Z.div_le_lower_bound; lia).
    assert (Hmod : (Z.of_nat n = cap * q + Z.of_nat n mod cap)%Z)
      by (apply Z.div_mod; lia).
    assert (Hr : (0 <= Z.of_nat n mod cap < cap)%Z)
      by (apply Z.mod_pos_bound; lia).
    rewrite Z.max_r by lia.
    unfold range.
    replace (0 <? Z.of_nat n)%Z with true
      by (symmetry; apply Z.ltb_lt; lia).
    set (m := ((Z.of_nat n - 1 - 0) / q)%Z).
    assert (Hlow : (cap - 1 <= m)%Z)
      by (apply Z.div_le_lower_bound; nia).
    assert (Hup : (m < 2 * cap - 1)%Z)
      by (apply Z.div_lt_upper_bound; nia).
    assert (Hmq : (q * m <= Z.of_nat n - 1 - 0)%Z)
      by (apply Z.mul_div_le; lia).
    assert (Hnext : (Z.of_nat n - 1 - 0 < q * Z.succ m)%Z)
      by (apply Z.mul_succ_div_gt; lia).
    assert (Hlast : ((Z.to_nat (1 + m) - 1) * Z.to_nat q < n)%nat)
      by (replace (Z.to_nat (1 + m) - 1)%nat with (Z.to_nat m) by lia; nia).
    assert (Hpast : (n <= Z.to_nat (1 + m) * Z.to_nat q)%nat) by nia.
    exists (Z.to_nat (1 + m)). split; [|split; [|split; [|split]]].
    + f_equal. rewrite map_map. apply map_ext. intros k. nia.
    + lia.
    + exact Hlast.
    + exact Hpast.
    + intros i. rewrite in_map_iff. split.
      * intros (k & <- & Hk). apply in_seq in Hk. split; [nia | now exists k].
      * intros (Hi & k & ->). exists k. split; [reflexivity|].
        apply in_seq. nia.
Qed.

(** X8.  The cap at and below zero: a cap of zero raises
    [ZeroDivisionError] exactly when there is a point to label, and a
    negative cap labels every point. *)
Theorem label_indices_nonpositive_cap (n : nat) (cap : Z) :
  (label_indices n 0 = Raise ZeroDivisionError <-> (0 < n)%nat)
  /\ ((cap < 0)%Z -> label_indices n cap = Ok (seq 0 n)).
Proof.
  split.
  - unfold label_indices. destruct n as [|n]; simpl.
    + split; [discriminate | lia].
    + split; [lia | reflexivity].
  - intros Hneg. unfold label_indices.
    replace (Z.of_nat n <=? cap)%Z with false
      by (symmetry; apply Z.leb_gt; lia).
    replace (cap =? 0)%Z with false by (symmetry; apply Z.eqb_neq; lia).
    assert (Hq : (Z.of_nat n / cap <= 0)%Z).
    { pose proof (Z.div_mod (Z.of_nat n) cap) as Hdm.
      pose proof (Z.mod_neg_bound (Z.of_nat n) cap Hneg) as Hr.
      nia. }
    rewrite Z.max_l by lia. f_equal. apply range_unit_step.
Qed.

(** *** The shading step on the run's own frontier *)

Lemma shade_step_frontier (a : args) (loads costs : list float)
      (x_right y_top : float) :
  shade a <> ShadeNone ->
  ~ (shade a = ShadeSlice /\ time_max a = None) ->
  zip loads costs <> [] ->
  exists (l0 : float) (f_loads f_costs : list float),
    Frontier.pick loads (Frontier.pareto_2d_min loads costs)
    = Ok (l0 :: f_loads)
    /\ Frontier.pick costs (Frontier.pareto_2d_min loads costs) = Ok f_costs
    /\ shade_step a loads costs x_right y_top
       = Ok (Some (l0 :: (l0 :: f_loads) ++ [x_right],
                   y_top :: f_costs ++ [y_top])).
Proof.
  intros Hshade Hslice Hne.
  destruct (FrontierFacts.frontier_points loads costs)
    as (ks & _ & Hl & Hc & Hs & Hks).
  specialize (Hks Hne). destruct ks as [|k0 ks]; [congruence|].
  exists (Frontier.load k0), (map Frontier.load ks),
    (map Frontier.cost (k0 :: ks)).
  split; [exact Hl|]. split; [exact Hc|].
  assert (Hrun : (f_loads <- Frontier.pick loads
                               (Frontier.pareto_2d_min loads costs) ;;
                  f_costs <- Frontier.pick costs
                               (Frontier.pareto_2d_min loads costs) ;;
                  Shading.shade_dominated_region f_loads f_costs
                    x_right y_top)
                 = Ok (Some (Frontier.load k0
                               :: (Frontier.load k0 :: map Frontier.load ks)
                               ++ [x_right],
                             y_top :: map Frontier.cost (k0 :: ks)
                               ++ [y_top]))).
  { rewrite Hl, Hc. cbn [bind].
    assert (El : map Frontier.load (k0 :: ks)
                 = map fst (map snd (k0 :: ks)))
      by (rewrite map_map; reflexivity).
    assert (Ec : map Frontier.cost (k0 :: ks)
                 = map snd (map snd (k0 :: ks)))
      by (rewrite map_map; reflexivity).
    rewrite El, Ec.
    change (map snd (k0 :: ks)) with (snd k0 :: map snd ks) in *.
    rewrite (ShadingFacts.shade_of_staircase _ _ x_right y_top Hs).
    rewrite <- El. reflexivity. }
  unfold shade_step.
  destruct (shade a) eqn:Es; [congruence| |].
  - destruct (time_max a); exact Hrun.
  - destruct (time_max a) eqn:Et; [exact Hrun|].
    exfalso. now apply Hslice.
Qed.



(** *** The rendering stage *)

Lemma fmax_fold (l : list float) (m0 m : float) :
  fold_left (fun m y => if flt m y then y else m) l m0 = m ->
  In m (m0 :: l) /\ m0 <= m /\ Forall (fun x => x <= m) l.
Proof.
  revert m0. induction l as [|y l IH]; intros m0 H; simpl in H.
  - subst m. split; [now left|]. split; [lra | constructor].
  - destruct (flt m0 y) eqn:E; float_props;
      destruct (IH _ H) as (Hin & Hle & Hall).
    + split; [now right|]. split; [lra|]. now constructor.
    + split; [destruct Hin as [<- | Hin]; [now left | now right; right]|].
      split; [exact Hle|]. constructor; [lra | exact Hall].
Qed.

(** [max(xs)] is an element of [xs] that none exceeds. *)
Lemma fmax_spec (xs : list float) (m : float) :
  fmax xs = Ok m -> In m xs /\ Forall (fun x => x <= m) xs.
Proof.
  destruct xs as [|x xs]; simpl; [discriminate|].
  intros H. injection H as H. apply fmax_fold in H.
  destruct H as (Hin & Hle & Hall). split; [exact Hin|].
  now constructor.
Qed.

Lemma render_zero_cap (rt : runtime) (a : args)
      (loads costs times : list float) :
  loads <> [] -> label_max a = 0%Z ->
  render rt a (loads, costs, times) = Raise ZeroDivisionError.
Proof.
  intros Hne Hcap. unfold render, label_indices. rewrite Hcap.
  destruct loads as [|l loads]; [congruence|]. reflexivity.
Qed.

Lemma render_inversion (rt : runtime) (a : args)
      (loads costs times : list float) (out : string) (fig : figure) :
  render rt a (loads, costs, times) = Ok (out, fig) ->
  out = output a
  /\ scatter fig = (loads, costs, times)
  /\ exists idxs,
      label_indices (length loads) (label_max a) = Ok idxs
      /\ length (annotations fig) = length idxs
      /\ axis_limits loads costs = Ok (xlim fig, ylim fig)
      /\ shade_step a loads costs (snd (xlim fig)) (snd (ylim fig))
         = Ok (shading fig)
      /\ write_failure rt (output a) = None.
Proof.
  unfold render. intros H.
  destruct (label_indices (length loads) (label_max a)) as [idxs|e] eqn:E1;
    cbn [bind] in H; [|discriminate].
  destruct (traverse (annotate loads costs times) idxs) as [anns|e] eqn:E2;
    cbn [bind] in H; [|discriminate].
  destruct (axis_limits loads costs) as [[xl yl]|e] eqn:E3;
    cbn [bind] in H; [|discriminate].
  cbn [fst snd] in H.
  destruct (shade_step a loads costs (snd xl) (snd yl))
    as [sh|e] eqn:E5; cbn [bind] in H; [|discriminate].
  unfold savefig in H.
  destruct (write_failure rt (output a)) eqn:E6; [discriminate|].
  injection H as <- <-. split; [reflexivity|]. split; [reflexivity|].
  exists idxs. simpl.
  apply traverse_length in E2. now repeat split.
Qed.

Lemma slice_step_ok (a : args) (cols cols' : columns) :
  slice_step a cols = Ok cols' ->
  fst (fst cols) <> [] -> aligned cols ->
  fst (fst cols') <> [] /\ aligned cols'.
Proof.
  unfold slice_step. destruct (time_max a) as [t|].
  - destruct (fst (fst (time_slice t cols))) eqn:E; [discriminate|].
    intros H _ _. injection H as <-. split; [rewrite E; discriminate|].
    destruct cols as [[loads costs] times]. simpl.
    rewrite !length_map. now split.
  - intros H. injection H as <-. now split.
Qed.

Section Outcomes.
Variable rt : runtime.
Variable a : args.

Let loaded : result columns :=
  load_antichain rt (path a) (branch_name (which a)).

Lemma loaded_aligned (cols : columns) : loaded = Ok cols -> aligned cols.
Proof.
  destruct cols as [[loads costs] times]. intros H.
  now apply load_antichain_lengths in H.
Qed.

(** [main] once loading and both empty-set checks have passed. *)
Lemma main_render (cols cols' : columns) :
  loaded = Ok cols -> fst (fst cols) <> [] ->
  slice_step a cols = Ok cols' ->
  main rt a = render rt a cols'
  /\ fst (fst cols') <> [] /\ aligned cols'.
Proof.
  intros Hload Hne Hs. split.
  - rewrite (main_nonempty rt a cols Hload Hne). now rewrite Hs.
  - apply (slice_step_ok a cols cols' Hs Hne). now apply loaded_aligned.
Qed.

(** How [main] reaches the rendering stage when it does not raise one of
    the empty-result errors or a loading error. *)
Lemma main_stages (r : result (string * figure)) :
  main rt a = r ->
  (exists e, r = Raise e /\ loaded = Raise e)
  \/ (r = Raise (RuntimeError msg_empty)
      /\ exists cols, loaded = Ok cols /\ fst (fst cols) = [])
  \/ (exists cols t, loaded = Ok cols /\ fst (fst cols) <> []
                     /\ time_max a = Some t
                     /\ fst (fst (time_slice t cols)) = []
                     /\ r = Raise (RuntimeError (msg_filtered t)))
  \/ (exists cols cols', loaded = Ok cols /\ fst (fst cols) <> []
                         /\ slice_step a cols = Ok cols'
                         /\ r = render rt a cols').
Proof.
  intros Hmain. destruct loaded as [cols|e] eqn:Hload.
  - destruct (fst (fst cols)) as [|l ls] eqn:Hl.
    + right. left. rewrite (main_empty rt a cols Hload Hl) in Hmain.
      split; [now symmetry|]. now exists cols.
    + assert (Hne : fst (fst cols) <> []) by (rewrite Hl; discriminate).
      destruct (slice_step a cols) as [cols'|e] eqn:Hs.
      * right. right. right. exists cols, cols'.
        destruct (main_render cols cols' Hload Hne Hs) as [Hm _].
        rewrite Hm in Hmain. rewrite Hl. now repeat split.
      * right. right. left.
        destruct (slice_step_raises a cols e Hs) as (t & Ht & -> & Hnil).
        exists cols, t. rewrite Hl.
        rewrite (main_filtered rt a cols t Hload Hne Ht Hnil) in Hmain.
        now repeat split.
  - left. exists e.
    assert (Hm : main rt a = Raise e).
    { unfold main. fold loaded. now rewrite Hload. }
    split; [congruence | reflexivity].
Qed.

End Outcomes.

Lemma slice_config_cases (a : args) :
  (shade a = ShadeSlice /\ time_max a = None)
  \/ ~ (shade a = ShadeSlice /\ time_max a = None).
Proof.
  destruct (shade a); destruct (time_max a);
    try (right; intros [H1 H2]; discriminate); now left.
Qed.

(** X13.  A label cap of zero stops every run that reaches the labelling
    step with a point to label: [ZeroDivisionError] is raised, whatever
    the shading mode, and no image is written. *)
Theorem main_zero_label_cap (rt : runtime) (a : args) (cols cols' : columns) :
  load_antichain rt (path a) (branch_name (which a)) = Ok cols ->
  fst (fst cols) <> [] ->
  slice_step a cols = Ok cols' ->
  label_max a = 0%Z ->
  main rt a = Raise ZeroDivisionError
  /\ image_written (main rt a) = None.
Proof.
  intros Hload Hne Hs Hcap.
  destruct (main_render rt a cols cols' Hload Hne Hs) as (Hm & Hne' & _).
  destruct cols' as [[loads costs] times].
  rewrite Hm, (render_zero_cap rt a loads costs times Hne' Hcap).
  now split.
Qed.

Lemma main_zero_label_cap_witness :
  main (example_runtime example_document) zero_cap_slice_args
  = Raise ZeroDivisionError
  /\ image_written (main (example_runtime example_document)
                      zero_cap_slice_args) = None.
Proof.
  apply (main_zero_label_cap (example_runtime example_document)
           zero_cap_slice_args
           ([40; 50; 60], [80; 100; 90], [20; 10; 5])
           ([40; 50; 60], [80; 100; 90], [20; 10; 5])).
  - vm_compute. reflexivity.
  - discriminate.
  - reflexivity.
  - reflexivity.
Defined.

(** X15.  What a successful run has drawn: the scattered points are the
    loaded points that pass the time filter, one label per labelled index,
    and a shaded polygon exactly when a shading mode was asked for. *)
Theorem main_figure (rt : runtime) (a : args) (out : string) (fig : figure) :
  main rt a = Ok (out, fig) ->
  exists cols idxs,
    load_antichain rt (path a) (branch_name (which a)) = Ok cols
    /\ slice_step a cols = Ok (scatter fig)
    /\ label_indices (length (fst (fst (scatter fig)))) (label_max a)
       = Ok idxs
    /\ length (annotations fig) = length idxs
    /\ (shading fig = None <-> shade a = ShadeNone).
Proof.
  intros Hmain.
  destruct (main_stages rt a _ Hmain)
    as [(e & H & _) | [[H _] | [(cols & t & _ & _ & _ & _ & H)
                               | (cols & cols' & Hload & Hne & Hs & Hr)]]];
    try discriminate.
  destruct (main_render rt a cols cols' Hload Hne Hs) as (_ & Hne' & Hal).
  destruct cols' as [[loads costs] times]. symmetry in Hr.
  apply render_inversion in Hr.
  destruct Hr as (_ & Hsc & idxs & Hidx & Hann & _ & Hsh & _).
  exists cols, idxs. rewrite Hsc. simpl fst.
  repeat split; trivial.
  - intros Hnone.
    assert (Hd : shade a = ShadeNone \/ shade a <> ShadeNone)
      by (destruct (shade a); [left | right | right]; congruence).
    destruct Hd as [Hn | Hn]; [exact Hn | exfalso].
    destruct (slice_config_cases a) as [[Hsl Ht] | Hno].
    + unfold shade_step in Hsh. rewrite Hsl, Ht in Hsh. discriminate.
    + assert (Hz : zip loads costs <> []).
      { simpl in Hne'. destruct loads; [congruence|].
        destruct costs; [destruct Hal; discriminate | discriminate]. }
      destruct (shade_step_frontier a loads costs (snd (xlim fig))
                  (snd (ylim fig)) Hn Hno Hz)
        as (? & ? & ? & _ & _ & Hok).
      rewrite Hok, Hnone in Hsh. discriminate.
  - intros Hnone. unfold shade_step in Hsh. rewrite Hnone in Hsh.
    now injection Hsh as <-.
Qed.

Lemma main_figure_witness :
  exists fig,
    main (example_runtime example_document) projection_args
    = Ok ("wildfire_tradespace.png"%string, fig)
    /\ exists cols idxs,
        load_antichain (example_runtime example_document)
          (path projection_args) (branch_name (which projection_args))
        = Ok cols
        /\ slice_step projection_args cols = Ok (scatter fig)
        /\ label_indices (length (fst (fst (scatter fig))))
             (label_max projection_args) = Ok idxs
        /\ length (annotations fig) = length idxs
        /\ (shading fig = None <-> shade projection_args = ShadeNone).
Proof.
  eexists. split.
  - vm_compute. reflexivity.
  - apply (main_figure (example_runtime example_document) projection_args
             "wildfire_tradespace.png"%string).
    vm_compute. reflexivity.
Defined.

End PlotterFacts.

(** ** The catalogue generator *)

Module GenCataloguesFacts.
Import GenCatalogues.
Local Open Scope string_scope.
Local Open Scope list_scope.
Local Open Scope Z_scope.

Lemma repeat_rows_Forall {R : Type} (P : R -> Prop) (body : rng -> R * rng) :
  (forall g, P (fst (body g))) ->
  forall (n : nat) (rows : list R) (g : rng),
    Forall P rows -> Forall P (fst (repeat_rows body n rows g)).
Proof.
  intros Hbody. induction n as [|n IH]; intros rows g Hrows; simpl.
  - exact Hrows.
  - specialize (Hbody g). destruct (body g) as [row g']. simpl in Hbody.
    apply IH. apply Forall_app. split; [exact Hrows|]. now constructor.
Qed.

Lemma entries_Forall {R : Type} (P : R -> Prop) (Q : entry -> Prop)
      (render : nat -> R -> entry) (rows : list R) :
  (forall k r, P r -> Q (render k r)) ->
  Forall P rows -> Forall Q (entries render rows).
Proof.
  intros Hr Hrows. unfold entries. rewrite Forall_forall in *.
  intros e He. apply in_map_iff in He. destruct He as ([k r] & <- & Hin).
  apply Hr, Hrows. eapply in_combine_r, Hin.
Qed.

Lemma aircraft_row_ok (g : rng) : aircraft_ok (fst (aircraft_row g)).
Proof.
  unfold aircraft_row.
  repeat match goal with
         | |- context [choice ?b ?g] => destruct (choice b g)
         | |- context [randint ?a ?b ?g] => destruct (randint a b g)
         end.
  cbv beta iota delta [aircraft_ok fst]. split; apply Z.le_max_r.
Qed.

Lemma crew_row_ok (g : rng) : crew_ok (fst (crew_row g)).
Proof.
  unfold crew_row.
  repeat match goal with
         | |- context [choice ?b ?g] => destruct (choice b g)
         | |- context [randint ?a ?b ?g] => destruct (randint a b g)
         end.
  cbv beta iota delta [crew_ok fst]. apply Z.le_max_r.
Qed.

Lemma retardant_row_ok (g : rng) : retardant_ok (fst (retardant_row g)).
Proof.
  unfold retardant_row.
  repeat match goal with
         | |- context [choice ?b ?g] => destruct (choice b g)
         | |- context [randint ?a ?b ?g] => destruct (randint a b g)
         end.
  cbv beta iota delta [retardant_ok fst]. apply Z.le_max_r.
Qed.

Lemma aircraft_rows_ok (n : Z) (g : rng) :
  Forall aircraft_ok (fst (aircraft_rows n g)).
Proof.
  unfold aircraft_rows.
  pose proof (repeat_rows_Forall aircraft_ok aircraft_row aircraft_row_ok
                (Z.to_nat n) [] g (Forall_nil _)) as H.
  destruct (repeat_rows aircraft_row (Z.to_nat n) [] g) as [rows g'].
  cbn [fst] in *. apply Forall_app. split; [exact H|].
  repeat constructor; cbv; congruence.
Qed.

Lemma crew_rows_ok (n : Z) (g : rng) :
  Forall crew_ok (fst (crew_rows n g)).
Proof.
  unfold crew_rows.
  pose proof (repeat_rows_Forall crew_ok crew_row crew_row_ok
                (Z.to_nat n) [] g (Forall_nil _)) as H.
  destruct (repeat_rows crew_row (Z.to_nat n) [] g) as [rows g'].
  cbn [fst] in *. apply Forall_app. split; [exact H|].
  repeat constructor; cbv; congruence.
Qed.

Lemma retardant_rows_ok (n : Z) (g : rng) :
  Forall retardant_ok (fst (retardant_rows n g)).
Proof.
  unfold retardant_rows.
  pose proof (repeat_rows_Forall retardant_ok retardant_row retardant_row_ok
                (Z.to_nat n) [] g (Forall_nil _)) as H.
  destruct (repeat_rows retardant_row (Z.to_nat n) [] g) as [rows g'].
  cbn [fst] in *. apply Forall_app. split; [exact H|].
  repeat constructor; cbv; congruence.
Qed.

Lemma gen_aircraft_floors (n : Z) (g : rng) :
  Forall aircraft_floors (fst (gen_aircraft n g)).
Proof.
  unfold gen_aircraft. pose proof (aircraft_rows_ok n g) as H.
  destruct (aircraft_rows n g) as [rows g']. simpl in *.
  eapply entries_Forall; [|exact H].
  intros k [[[a c] l] t] [Hc Hl]. exists c, l, t. now repeat split.
Qed.

Lemma gen_crews_floors (n : Z) (g : rng) :
  Forall crew_floors (fst (gen_crews n g)).
Proof.
  unfold gen_crews. pose proof (crew_rows_ok n g) as H.
  destruct (crew_rows n g) as [rows g']. simpl in *.
  eapply entries_Forall; [|exact H].
  intros k [[a c] t] Hc. exists c, t. now split.
Qed.

Lemma gen_retardant_floors (n : Z) (g : rng) :
  Forall retardant_floors (fst (gen_retardant n g)).
Proof.
  unfold gen_retardant. pose proof (retardant_rows_ok n g) as H.
  destruct (retardant_rows n g) as [rows g']. simpl in *.
  eapply entries_Forall; [|exact H].
  intros k [l c] Hc. exists c. now split.
Qed.

(** A generator whose raw numbers are all 0 picks the first bin and the
    lowest noise every time; the anchors follow the one generated row. *)
Example gen_retardant_run :
  fst (gen_retardant 1 {| raw := fun _ => 0%nat; used := 0 |})
  = [ {| model := 0; f_max := [(1000, "kg")]; r_min := [(35000, "USD")] |};
      {| model := 1; f_max := [(2000, "kg")]; r_min := [(50000, "USD")] |};
      {| model := 2; f_max := [(6000, "kg")]; r_min := [(50000, "USD")] |} ].
Proof. vm_compute. reflexivity. Qed.

(** C9.  Every row the generator emits, the two anchor rows of each
    catalogue included, has its floored resource values at or above the
    floor of its catalogue: aircraft cost at least 120000 and load at least
    500, ground-crew cost at least 60000, retardant cost at least 10000.
    This holds for each generating function at every row count and
    generator state, and for the three catalogues the script writes. *)
Theorem catalogue_rows_respect_floors :
  (forall (n : Z) (g : rng),
      Forall aircraft_floors (fst (gen_aircraft n g))
      /\ Forall crew_floors (fst (gen_crews n g))
      /\ Forall retardant_floors (fst (gen_retardant n g)))
  /\ (forall g : rng,
         let '(aircraft, crews, retardant) := catalogues g in
         Forall aircraft_floors aircraft
         /\ Forall crew_floors crews
         /\ Forall retardant_floors retardant).
Proof.
  split.
  - intros n g. split; [apply gen_aircraft_floors|].
    split; [apply gen_crews_floors | apply gen_retardant_floors].
  - intros g. unfold catalogues.
    pose proof (gen_aircraft_floors 100 g) as Ha.
    destruct (gen_aircraft 100 g) as [aircraft g1].
    pose proof (gen_crews_floors 100 g1) as Hc.
    destruct (gen_crews 100 g1) as [crews g2].
    pose proof (gen_retardant_floors 40 g2) as Hr.
    destruct (gen_retardant 40 g2) as [retardant g3].
    now repeat split.
Qed.

(** *** Bins, ranges, identifiers and anchors *)

Lemma randbelow_bound (n : nat) (g : rng) :
  (0 < n)%nat -> (fst (randbelow n g) < n)%nat.
Proof. intros Hn. simpl. apply Nat.mod_upper_bound. lia. Qed.

Lemma choice_in (bins : list Z) (g : rng) :
  bins <> [] -> In (fst (choice bins g)) bins.
Proof.
  intros Hne. unfold choice.
  pose proof (randbelow_bound (length bins) g) as Hb.
  destruct (randbelow (length bins) g) as [i g']. simpl in *.
  apply nth_In. apply Hb. destruct bins; [congruence | simpl; lia].
Qed.

Lemma randint_range (a b : Z) (g : rng) :
  a <= b -> a <= fst (randint a b g) <= b.
Proof.
  intros Hab. unfold randint.
  pose proof (randbelow_bound (Z.to_nat (b - a + 1)) g) as Hb.
  destruct (randbelow (Z.to_nat (b - a + 1)) g) as [i g']. simpl in *.
  assert ((i < Z.to_nat (b - a + 1))%nat) by (apply Hb; lia). lia.
Qed.

Lemma bins_bounds (lo hi : Z) (bins : list Z) (x : Z) :
  Forall (fun y => lo <= y <= hi) bins -> In x bins -> lo <= x <= hi.
Proof. intros H Hin. rewrite Forall_forall in H. now apply H. Qed.

(** Name the result of every draw of a row and keep what is known of it. *)
Ltac draw :=
  repeat match goal with
    | |- context [choice ?b ?g] =>
        let H := fresh "Hin" in
        assert (H : In (fst (choice b g)) b)
          by (apply choice_in; discriminate);
        destruct (choice b g); cbn [fst] in H
    | |- context [randint ?a ?b ?g] =>
        let H := fresh "Hr" in
        assert (H : a <= fst (randint a b g) <= b)
          by (apply randint_range; lia);
        destruct (randint a b g); cbn [fst] in H
    end.

Lemma aircraft_row_range (g : rng) :
  aircraft_row_in_range (fst (aircraft_row g)).
Proof.
  unfold aircraft_row. draw.
  cbv beta iota delta [aircraft_row_in_range fst].
  assert (10 <= z <= 50)
    by (eapply bins_bounds; [|exact Hin]; repeat constructor; lia).
  assert (6 <= z0 <= 30)
    by (eapply bins_bounds; [|exact Hin0]; repeat constructor; lia).
  split; [exact Hin|]. split; [exact Hin0|]. lia.
Qed.

Lemma crew_row_range (g : rng) : crew_row_in_range (fst (crew_row g)).
Proof.
  unfold crew_row. draw.
  cbv beta iota delta [crew_row_in_range fst].
  assert (20 <= z <= 120)
    by (eapply bins_bounds; [|exact Hin]; repeat constructor; lia).
  assert (10 <= z0 <= 60)
    by (eapply bins_bounds; [|exact Hin0]; repeat constructor; lia).
  split; [exact Hin|]. split; [exact Hin0|]. lia.
Qed.

Lemma retardant_row_range (g : rng) :
  retardant_row_in_range (fst (retardant_row g)).
Proof.
  unfold retardant_row. draw.
  cbv beta iota delta [retardant_row_in_range fst].
  assert (1000 <= z <= 7000)
    by (eapply bins_bounds; [|exact Hin]; repeat constructor; lia).
  split; [exact Hin|]. lia.
Qed.

(** X19.  The rows the cost models generate stay clear of the floors: an
    aircraft row costs between 375000 and 2065000 and loads between 1550
    and 5670, a ground-crew row costs between 198000 and 1152000, a
    retardant row between 35000 and 149000, each with its area, time or
    load taken from the bin table.  The clamps to 120000, 500, 60000 and
    10000 therefore never change a value. *)
Theorem generated_rows_in_range (g : rng) :
  aircraft_row_in_range (fst (aircraft_row g))
  /\ crew_row_in_range (fst (crew_row g))
  /\ retardant_row_in_range (fst (retardant_row g)).
Proof.
  split; [apply aircraft_row_range|].
  split; [apply crew_row_range | apply retardant_row_range].
Qed.

Lemma repeat_rows_length {R : Type} (body : rng -> R * rng) (n : nat)
      (rows : list R) (g : rng) :
  length (fst (repeat_rows body n rows g)) = (length rows + n)%nat.
Proof.
  revert rows g. induction n as [|n IH]; intros rows g; simpl; [lia|].
  destruct (body g) as [row g']. rewrite IH, length_app. simpl. lia.
Qed.

Lemma enumerate_from_app {A : Type} (l l' : list A) (s : nat) :
  combine (seq s (length (l ++ l'))) (l ++ l')
  = combine (seq s (length l)) l
      ++ combine (seq (s + length l)%nat (length l')) l'.
Proof.
  revert s. induction l as [|x l IH]; intros s; simpl.
  - now rewrite Nat.add_0_r.
  - rewrite IH.
    replace (S s + length l)%nat with (s + S (length l))%nat by lia.
    reflexivity.
Qed.

Lemma entries_app {R : Type} (render : nat -> R -> entry) (rows : list R)
      (a1 a2 : R) :
  entries render (rows ++ [a1; a2])
  = entries render rows
      ++ [render (length rows) a1; render (S (length rows)) a2].
Proof.
  unfold entries, Py.enumerate. rewrite enumerate_from_app, map_app.
  reflexivity.
Qed.

Lemma entries_models {R : Type} (render : nat -> R -> entry) (rows : list R) :
  (forall k r, model (render k r) = k) ->
  map model (entries render rows) = seq 0 (length rows).
Proof.
  intros Hm. unfold entries. rewrite map_map.
  rewrite <- PyFacts.map_fst_enumerate. apply map_ext.
  intros [k r]. apply Hm.
Qed.

Lemma aircraft_rows_range (n : Z) (g : rng) :
  Forall (fun row => aircraft_row_in_range row
                     \/ row = (10, 250000, 1500, 30)
                     \/ row = (50, 2000000, 7000, 6))
    (fst (aircraft_rows n g)).
Proof.
  unfold aircraft_rows.
  pose proof (repeat_rows_Forall aircraft_row_in_range aircraft_row
                aircraft_row_range (Z.to_nat n) [] g (Forall_nil _)) as H.
  destruct (repeat_rows aircraft_row (Z.to_nat n) [] g) as [rows g'].
  cbn [fst] in *. apply Forall_app. split.
  - eapply Forall_impl; [|exact H]. intros; now left.
  - constructor; [right; left; reflexivity|].
    constructor; [right; right; reflexivity | constructor].
Qed.

Lemma crew_rows_range (n : Z) (g : rng) :
  Forall (fun row => crew_row_in_range row
                     \/ row = (20, 150000, 60)
                     \/ row = (120, 1050000, 10))
    (fst (crew_rows n g)).
Proof.
  unfold crew_rows.
  pose proof (repeat_rows_Forall crew_row_in_range crew_row
                crew_row_range (Z.to_nat n) [] g (Forall_nil _)) as H.
  destruct (repeat_rows crew_row (Z.to_nat n) [] g) as [rows g'].
  cbn [fst] in *. apply Forall_app. split.
  - eapply Forall_impl; [|exact H]. intros; now left.
  - constructor; [right; left; reflexivity|].
    constructor; [right; right; reflexivity | constructor].
Qed.

Lemma retardant_rows_range (n : Z) (g : rng) :
  Forall (fun row => retardant_row_in_range row
                     \/ row = (2000, 50000) \/ row = (6000, 50000))
    (fst (retardant_rows n g)).
Proof.
  unfold retardant_rows.
  pose proof (repeat_rows_Forall retardant_row_in_range retardant_row
                retardant_row_range (Z.to_nat n) [] g (Forall_nil _)) as H.
  destruct (repeat_rows retardant_row (Z.to_nat n) [] g) as [rows g'].
  cbn [fst] in *. apply Forall_app. split.
  - eapply Forall_impl; [|exact H]. intros; now left.
  - constructor; [right; left; reflexivity|].
    constructor; [right; right; reflexivity | constructor].
Qed.

Ltac in_bins := cbv; tauto.

(** X20.  Every entry of every catalogue, the anchors included, has its
    functionality value and its time taken from the bin tables, and its
    cost and load within the range that the cost model and the anchors
    span. *)
Theorem catalogue_entries_in_bins_and_ranges (n : Z) (g : rng) :
  Forall aircraft_entry_ok (fst (gen_aircraft n g))
  /\ Forall crew_entry_ok (fst (gen_crews n g))
  /\ Forall retardant_entry_ok (fst (gen_retardant n g)).
Proof.
  split; [|split].
  - unfold gen_aircraft. pose proof (aircraft_rows_range n g) as H.
    destruct (aircraft_rows n g) as [rows g']. cbn [fst] in *.
    eapply entries_Forall; [|exact H].
    intros k [[[a c] l] t] Hrow. exists a, c, l, t.
    split; [reflexivity|]. split; [reflexivity|].
    destruct Hrow as [(Ha & Ht & Hc & Hl) | [E | E]].
    + repeat split; trivial; lia.
    + injection E as -> -> -> ->. repeat split; try lia; in_bins.
    + injection E as -> -> -> ->. repeat split; try lia; in_bins.
  - unfold gen_crews. pose proof (crew_rows_range n g) as H.
    destruct (crew_rows n g) as [rows g']. cbn [fst] in *.
    eapply entries_Forall; [|exact H].
    intros k [[a c] t] Hrow. exists a, c, t.
    split; [reflexivity|]. split; [reflexivity|].
    destruct Hrow as [(Ha & Ht & Hc) | [E | E]].
    + repeat split; trivial; lia.
    + injection E as -> -> ->. repeat split; try lia; in_bins.
    + injection E as -> -> ->. repeat split; try lia; in_bins.
  - unfold gen_retardant. pose proof (retardant_rows_range n g) as H.
    destruct (retardant_rows n g) as [rows g']. cbn [fst] in *.
    eapply entries_Forall; [|exact H].
    intros k [l c] Hrow. exists l, c.
    split; [reflexivity|]. split; [reflexivity|].
    destruct Hrow as [(Hl & Hc) | [E | E]].
    + repeat split; trivial; lia.
    + injection E as -> ->. repeat split; try lia; in_bins.
    + injection E as -> ->. repeat split; try lia; in_bins.
Qed.

Lemma gen_aircraft_anchored (n : Z) (g : rng) :
  exists generated,
    length generated = Z.to_nat n
    /\ fst (gen_aircraft n g) = generated ++ aircraft_anchors (Z.to_nat n).
Proof.
  unfold gen_aircraft, aircraft_rows.
  pose proof (repeat_rows_length aircraft_row (Z.to_nat n) [] g) as Hlen.
  destruct (repeat_rows aircraft_row (Z.to_nat n) [] g) as [rows g'].
  cbn [fst length] in *. rewrite entries_app.
  exists (entries aircraft_entry rows). split.
  - unfold entries, Py.enumerate.
    now rewrite length_map, length_combine, length_seq, Nat.min_id.
  - now rewrite Hlen.
Qed.

Lemma gen_crews_anchored (n : Z) (g : rng) :
  exists generated,
    length generated = Z.to_nat n
    /\ fst (gen_crews n g) = generated ++ crew_anchors (Z.to_nat n).
Proof.
  unfold gen_crews, crew_rows.
  pose proof (repeat_rows_length crew_row (Z.to_nat n) [] g) as Hlen.
  destruct (repeat_rows crew_row (Z.to_nat n) [] g) as [rows g'].
  cbn [fst length] in *. rewrite entries_app.
  exists (entries crew_entry rows). split.
  - unfold entries, Py.enumerate.
    now rewrite length_map, length_combine, length_seq, Nat.min_id.
  - now rewrite Hlen.
Qed.

Lemma gen_retardant_anchored (n : Z) (g : rng) :
  exists generated,
    length generated = Z.to_nat n
    /\ fst (gen_retardant n g)
       = generated ++ retardant_anchors (Z.to_nat n).
Proof.
  unfold gen_retardant, retardant_rows.
  pose proof (repeat_rows_length retardant_row (Z.to_nat n) [] g) as Hlen.
  destruct (repeat_rows retardant_row (Z.to_nat n) [] g) as [rows g'].
  cbn [fst length] in *. rewrite entries_app.
  exists (entries retardant_entry rows). split.
  - unfold entries, Py.enumerate.
    now rewrite length_map, length_combine, length_seq, Nat.min_id.
  - now rewrite Hlen.
Qed.

(** X21.  Each catalogue is [n] generated entries followed by its two
    anchor entries, whatever the generator state; for [n] at or below zero
    it is the two anchors alone. *)
Theorem catalogues_end_with_anchors (n : Z) (g : rng) :
  (exists generated,
      length generated = Z.to_nat n
      /\ fst (gen_aircraft n g) = generated ++ aircraft_anchors (Z.to_nat n))
  /\ (exists generated,
         length generated = Z.to_nat n
         /\ fst (gen_crews n g) = generated ++ crew_anchors (Z.to_nat n))
  /\ (exists generated,
         length generated = Z.to_nat n
         /\ fst (gen_retardant n g)
            = generated ++ retardant_anchors (Z.to_nat n))
  /\ (n <= 0 ->
      fst (gen_aircraft n g) = aircraft_anchors 0
      /\ fst (gen_crews n g) = crew_anchors 0
      /\ fst (gen_retardant n g) = retardant_anchors 0).
Proof.
  split; [apply gen_aircraft_anchored|].
  split; [apply gen_crews_anchored|].
  split; [apply gen_retardant_anchored|].
  intros Hn.
  destruct (gen_aircraft_anchored n g) as (ga & Hla & ->).
  destruct (gen_crews_anchored n g) as (gc & Hlc & ->).
  destruct (gen_retardant_anchored n g) as (gr & Hlr & ->).
  replace (Z.to_nat n) with 0%nat in * by lia.
  destruct ga; [|discriminate]. destruct gc; [|discriminate].
  destruct gr; [|discriminate]. now repeat split.
Qed.

(** X22.  The identifiers of a catalogue are [model0], [model1], ... in
    order, one per entry and so all different, [n + 2] of them; and every
    entry carries the units of its catalogue's schema: one functionality
    value and three, two or one resource values. *)
Theorem catalogue_identifiers_and_schema (n : Z) (g : rng) :
  (map model (fst (gen_aircraft n g)) = seq 0 (Z.to_nat n + 2)
   /\ Forall (fun e => units e = (["ha"], ["USD"; "kg"; "min"]))
        (fst (gen_aircraft n g)))
  /\ (map model (fst (gen_crews n g)) = seq 0 (Z.to_nat n + 2)
      /\ Forall (fun e => units e = (["ha"], ["USD"; "min"]))
           (fst (gen_crews n g)))
  /\ (map model (fst (gen_retardant n g)) = seq 0 (Z.to_nat n + 2)
      /\ Forall (fun e => units e = (["kg"], ["USD"]))
           (fst (gen_retardant n g))).
Proof.
  split; [|split].
  - unfold gen_aircraft, aircraft_rows.
    pose proof (repeat_rows_length aircraft_row (Z.to_nat n) [] g) as Hlen.
    destruct (repeat_rows aircraft_row (Z.to_nat n) [] g) as [rows g'].
    cbn [fst length] in *. split.
    + rewrite entries_models by (intros k [[[a c] l] t]; reflexivity).
      rewrite length_app, Hlen. reflexivity.
    + apply entries_Forall with (P := fun _ => True);
        [|apply Forall_forall; trivial].
      intros k [[[a c] l] t] _. reflexivity.
  - unfold gen_crews, crew_rows.
    pose proof (repeat_rows_length crew_row (Z.to_nat n) [] g) as Hlen.
    destruct (repeat_rows crew_row (Z.to_nat n) [] g) as [rows g'].
    cbn [fst length] in *. split.
    + rewrite entries_models by (intros k [[a c] t]; reflexivity).
      rewrite length_app, Hlen. reflexivity.
    + apply entries_Forall with (P := fun _ => True);
        [|apply Forall_forall; trivial].
      intros k [[a c] t] _. reflexivity.
  - unfold gen_retardant, retardant_rows.
    pose proof (repeat_rows_length retardant_row (Z.to_nat n) [] g) as Hlen.
    destruct (repeat_rows retardant_row (Z.to_nat n) [] g) as [rows g'].
    cbn [fst length] in *. split.
    + rewrite entries_models by (intros k [l c]; reflexivity).
      rewrite length_app, Hlen. reflexivity.
    + apply entries_Forall with (P := fun _ => True);
        [|apply Forall_forall; trivial].
      intros k [l c] _. reflexivity.
Qed.

End GenCataloguesFacts.
